(** * Task timeline: outline, time axis and geometry of [App.tsx]

    A shallow embedding of the pure computations of the Gantt view
    ([parseDate], [compareTasks], [buildTaskRows], [getTaskRange], the
    [timelineRange], [timelineTicks] and [dependencyLines] memos and the
    bar geometry of the [gantt__bars] block), followed by the properties
    that the specification states about them.

    Conventions of the embedding.
    - A [Date] that passed the [Number.isNaN(date.getTime())] test is
      represented by its time value, an integer number of milliseconds.
    - The host's string-to-date conversion ([new Date(value)]), the host's
      collation ([String.prototype.localeCompare]) and the host's date
      formatting ([toLocaleDateString]) are parameters of the development.
    - JavaScript numbers that hold ratios and pixel coordinates are
      modelled by exact rationals ([Qc]); the formulas are those of the
      source, rounding of IEEE doubles is not modelled.
    - The recursion of [visit] is bounded by an explicit [fuel]; running
      out of fuel ([None]) stands for the stack exhaustion of the source. *)

From stdpp Require Import gmap strings list numbers pretty sorting.
From Stdlib Require Import Ascii QArith Qcanon.

Local Open Scope Z_scope.

(** ** JavaScript numbers as produced by [compareTasks] *)

Inductive num : Type :=
  | Fin (z : Z)
  | PosInf
  | NegInf
  | NaN.

Definition num_sub (a b : num) : num :=
  match a, b with
  | NaN, _ | _, NaN => NaN
  | Fin x, Fin y => Fin (x - y)
  | Fin _, PosInf => NegInf
  | Fin _, NegInf => PosInf
  | PosInf, PosInf => NaN
  | PosInf, _ => PosInf
  | NegInf, NegInf => NaN
  | NegInf, _ => NegInf
  end.

(** [a !== b] on numbers. *)
Definition num_strict_ne (a b : num) : bool :=
  match a, b with
  | Fin x, Fin y => negb (x =? y)
  | PosInf, PosInf => false
  | NegInf, NegInf => false
  | _, _ => true
  end.

(** [v < 0] and [v > 0], the two tests a sort makes on a comparator result. *)
Definition num_neg (v : num) : bool :=
  match v with Fin z => z <? 0 | NegInf => true | _ => false end.
Definition num_pos (v : num) : bool :=
  match v with Fin z => 0 <? z | PosInf => true | _ => false end.

(** ** Data model ([types.ts]) *)

Inductive TaskStatus : Type :=
  | planned
  | in_progress
  | completed
  | cancelled.

Module Task.
Record t : Type := mk {
  id : Z;
  projectId : Z;
  name : string;
  status : TaskStatus;
  parentTaskId : option Z;
  dependsOn : list Z;
  startDate : option string;
  dueDate : option string
}.
End Task.

Module TaskRow.
Record t : Type := mk {
  task : Task.t;
  depth : nat;
  number : string
}.
End TaskRow.

Module TaskRange.
Record t : Type := mk {
  start : Z;
  end_ : Z
}.
End TaskRange.

Module TimelineRange.
Record t : Type := mk {
  start : Z;
  end_ : Z;
  startMs : Z;
  endMs : Z
}.
End TimelineRange.

Module Tick.
Record t : Type := mk {
  label : string;
  position : Qc
}.
End Tick.

Module Line.
Record t : Type := mk {
  id : string;
  x1 : Qc;
  y1 : Qc;
  x2 : Qc;
  y2 : Qc
}.
End Line.

(** One [<span>] of the [gantt__bars] block: the bare placeholder, or a
    bar with its class name and its [top] (px), [left] (%) and [width] (%). *)
Inductive Bar : Type :=
  | BarPlaceholder (key : Z)
  | BarStyled (key : Z) (className : string) (top : Qc) (left : Qc) (width : Qc).

Global Instance TaskStatus_eq_dec : EqDecision TaskStatus.
Proof. solve_decision. Defined.
Global Instance Task_eq_dec : EqDecision Task.t.
Proof. solve_decision. Defined.
Global Instance TaskRow_eq_dec : EqDecision TaskRow.t.
Proof. solve_decision. Defined.

Definition ROW_HEIGHT : Z := 48.

(** ** Generic helpers of the embedding *)

(** [array.slice().sort(cmp)]: a stable sort.  [x] is placed before the
    first element it does not have to follow. *)
Section Sort.
Context {A : Type} (cmp : A → A → num).

Fixpoint sort_insert (x : A) (l : list A) : list A :=
  match l with
  | [] => [x]
  | y :: l' => if num_pos (cmp x y) then y :: sort_insert x l' else x :: y :: l'
  end.

Definition js_sort (l : list A) : list A := foldr sort_insert [] l.
End Sort.

(** [array.forEach((x, index) => ...)] over a body that updates a state
    and may fail. *)
Fixpoint forEachIndexed {A S : Type} (body : A → nat → S → option S)
    (l : list A) (index : nat) (s : S) : option S :=
  match l with
  | [] => Some s
  | x :: l' =>
      match body x index s with
      | Some s' => forEachIndexed body l' (Datatypes.S index) s'
      | None => None
      end
  end.

(** [Math.min(x, ...xs)] and [Math.max(x, ...xs)] on a non-empty argument list. *)
Definition Math_min (x : Z) (xs : list Z) : Z := foldl Z.min x xs.
Definition Math_max (x : Z) (xs : list Z) : Z := foldl Z.max x xs.

Definition Qc_max (x y : Qc) : Qc := if decide (x ≤ y)%Qc then y else x.

(** Time value of [new Date(v)] for a number [v]: truncated towards zero,
    [None] (Invalid Date) outside of the representable range. *)
Definition newDate (v : Qc) : option Z :=
  let t := Z.quot (Qnum (this v)) (Z.pos (Qden (this v))) in
  if Z.abs t <=? 8640000000000000 then Some t else None.

Definition status_text (s : TaskStatus) : string :=
  match s with
  | planned => "planned"
  | in_progress => "in progress"
  | completed => "completed"
  | cancelled => "cancelled"
  end.

(** [task.status.replace(' ', '-')] *)
Definition status_class (s : TaskStatus) : string :=
  match s with
  | planned => "planned"
  | in_progress => "in-progress"
  | completed => "completed"
  | cancelled => "cancelled"
  end.


Module Project.
Record t : Type := mk {
  id : Z;
  name : string;
  taskCount : Z;
  earliestStartDate : option string;
  latestEndDate : option string;
  durationDays : option Z
}.
End Project.

(** The argument of [formatDate]: a [Date] object, given by its time value
    ([None] for an Invalid Date), or a string. *)
Inductive DateOrString : Type :=
  | DateValue (d : option Z)
  | StringValue (s : string).
(** ** A concrete host, used to run the engine on examples

    [IsoDate.parse] is the date-only ISO form of ECMAScript's date strings,
    [YYYY-MM-DD] read as midnight UTC; every other string is rejected here.
    [RootCollation.localeCompare] is the default collation on strings of
    ASCII letters: letters are compared alphabetically first, and only
    when two strings agree up to case does case decide, lower case first. *)

Module IsoDate.
Definition digit (c : ascii) : option Z := Z.of_nat <$> Ascii.is_nat c.

Definition is_leap (y : Z) : bool :=
  ((y mod 4 =? 0) && negb (y mod 100 =? 0)) || (y mod 400 =? 0).

Definition days_in_month (y m : Z) : Z :=
  if m =? 2 then (if is_leap y then 29 else 28)
  else if (m =? 4) || (m =? 6) || (m =? 9) || (m =? 11) then 30
  else 31.

(** Days between 1970-01-01 and the civil date [y]-[m]-[d]. *)
Definition days_from_civil (y m d : Z) : Z :=
  let y' := if m <=? 2 then y - 1 else y in
  let era := y' / 400 in
  let yoe := y' - era * 400 in
  let mp := if m <=? 2 then m + 9 else m - 3 in
  let doy := (153 * mp + 2) / 5 + d - 1 in
  let doe := yoe * 365 + yoe / 4 - yoe / 100 + doy in
  era * 146097 + doe - 719468.

Definition parse (s : string) : option Z :=
  match s with
  | String y1 (String y2 (String y3 (String y4 (String "-"
      (String m1 (String m2 (String "-" (String d1 (String d2 EmptyString))))))))) =>
      a ← digit y1; b ← digit y2; c ← digit y3; e ← digit y4;
      f ← digit m1; g ← digit m2; h ← digit d1; i ← digit d2;
      let y := 1000 * a + 100 * b + 10 * c + e in
      let m := 10 * f + g in
      let d := 10 * h + i in
      if (1 <=? m) && (m <=? 12) && (1 <=? d) && (d <=? days_in_month y m)
      then Some (days_from_civil y m d * 86400000)
      else None
  | _ => None
  end.
End IsoDate.

Module RootCollation.
Definition is_upper (c : ascii) : bool :=
  let n := nat_of_ascii c in (65 <=? n)%nat && (n <=? 90)%nat.

Definition fold_case (c : ascii) : nat :=
  let n := nat_of_ascii c in if is_upper c then (n + 32)%nat else n.

(** Alphabetical level: case is ignored. *)
Fixpoint primary (a b : string) : comparison :=
  match a, b with
  | EmptyString, EmptyString => Eq
  | EmptyString, String _ _ => Lt
  | String _ _, EmptyString => Gt
  | String x a', String y b' =>
      match Nat.compare (fold_case x) (fold_case y) with
      | Eq => primary a' b'
      | c => c
      end
  end.

(** Case level, for strings equal up to case: lower case first. *)
Fixpoint tertiary (a b : string) : comparison :=
  match a, b with
  | String x a', String y b' =>
      match is_upper x, is_upper y with
      | false, true => Lt
      | true, false => Gt
      | _, _ => tertiary a' b'
      end
  | _, _ => Eq
  end.

Definition localeCompare (a b : string) : Z :=
  match primary a b with
  | Lt => -1
  | Gt => 1
  | Eq => match tertiary a b with Lt => -1 | Gt => 1 | Eq => 0 end
  end.
End RootCollation.

Module Examples.
Definition toLocaleShort (d : option Z) : string :=
  match d with Some t => pretty t | None => "Invalid Date" end.

Definition toLocaleDate (t : Z) : string := pretty t.

Definition task (id : Z) (name : string) (parent : option Z) (deps : list Z)
    (start due : option string) : Task.t :=
  Task.mk id 1 name planned parent deps start due.

(** Scenario A of the specification. *)
Definition design : Task.t :=
  task 1 "Design" None [] (Some "2024-01-01") (Some "2024-01-05").
Definition sketch : Task.t :=
  task 2 "Sketch" (Some 1) [1] (Some "2024-01-02") (Some "2024-01-03").
Definition scenarioA : list Task.t := [design; sketch].

(** Scenario B: equal start dates, names out of order. *)
Definition scenarioB : list Task.t :=
  [ task 1 "Beta" None [] (Some "2024-02-01") None;
    task 2 "Alpha" None [] (Some "2024-02-01") None ].

(** Scenario C: a parent reference that matches no task. *)
Definition orphan : Task.t := task 2 "Orphan" (Some 99) [] (Some "2024-01-02") None.
Definition scenarioC : list Task.t :=
  [ task 1 "Kept" None [] (Some "2024-01-01") None; orphan ].

(** A two-task parent cycle and a task that is its own parent. *)
Definition ping : Task.t := task 2 "Ping" (Some 3) [] None None.
Definition pong : Task.t := task 3 "Pong" (Some 2) [] None None.
Definition selfParent : Task.t := task 4 "Self" (Some 4) [] None None.
Definition cyclic : list Task.t :=
  [ task 1 "Root" None [] None None; ping; pong; selfParent ].

(** A forest with two roots; the second root has three children. *)
Definition forest : list Task.t :=
  [ task 10 "b-root" None [] (Some "2024-03-02") None;
    task 11 "a-root" None [] (Some "2024-03-01") None;
    task 12 "z" (Some 10) [] (Some "2024-03-03") None;
    task 13 "y" (Some 10) [] (Some "2024-03-04") None;
    task 14 "x" (Some 10) [] (Some "2024-03-05") None;
    task 15 "w" (Some 11) [] None None;
    task 16 "v" (Some 14) [] None None ].

(** Equal start dates, names that differ in case. *)
Definition upperB : Task.t := task 1 "B" None [] (Some "2024-02-01") None.
Definition lowerA : Task.t := task 2 "a" None [] (Some "2024-02-01") None.
Definition mixedCase : list Task.t := [upperB; lowerA].

(** Orphans and cycles only: no task without a parent reference. *)
Definition rootless : list Task.t := [ping; pong; selfParent; orphan].

(** A root and a task that names the root as parent and shares its identifier. *)
Definition twinRoot : Task.t := task 1 "A" None [] None None.
Definition twinChild : Task.t := task 1 "B" (Some 1) [] None None.
Definition twins : list Task.t := [twinRoot; twinChild].

(** The rows, the range and the intervals of scenario A. *)
Definition designRow : TaskRow.t := TaskRow.mk design 0 "1".
Definition sketchRow : TaskRow.t := TaskRow.mk sketch 1 "1.1".
Definition rowsA : list TaskRow.t := [designRow; sketchRow].
Definition rangeA : TimelineRange.t :=
  TimelineRange.mk 1704067200000 1704412800000 1704067200000 1704412800000.
Definition designRange : TaskRange.t := TaskRange.mk 1704067200000 1704412800000.
Definition sketchRange : TaskRange.t := TaskRange.mk 1704153600000 1704240000000.

(** A task whose due date lies before its start date. *)
Definition late : Task.t := task 1 "Late" None [] (Some "2024-01-05") (Some "2024-01-01").
Definition backwards : list Task.t := [late].
End Examples.

(** ** The engine *)

Section Engine.
(** [new Date(value).getTime()] for a non-empty string, [None] for NaN. *)
Variable Date_parse : string → option Z.
(** [a.localeCompare(b)] *)
Variable localeCompare : string → string → Z.
(** [value.toLocaleDateString(undefined, { month: 'short', day: 'numeric' })]
    of a [Date] given by its time value, [None] for an Invalid Date. *)
Variable toLocaleShort : option Z → string.

Definition parseDate (value : option string) : option Z :=
  match value with
  | None => None
  | Some "" => None
  | Some s => Date_parse s
  end.

(** The argument is [null] ([None]) or a [Date] that may be invalid. *)
Definition formatShortDate (value : option (option Z)) : string :=
  match value with
  | None => "—"
  | Some d => toLocaleShort d
  end.

Definition startKey (a : Task.t) : num :=
  match parseDate (Task.startDate a) with
  | Some t => Fin t
  | None => PosInf
  end.

Definition compareTasks (a b : Task.t) : num :=
  let aStart := startKey a in
  let bStart := startKey b in
  if num_strict_ne aStart bStart then num_sub aStart bStart
  else Fin (localeCompare (Task.name a) (Task.name b)).

(** *** buildTaskRows *)

Definition byParent_add (byParent : gmap (option Z) (list Task.t)) (task : Task.t)
    : gmap (option Z) (list Task.t) :=
  let key := Task.parentTaskId task in
  match byParent !! key with
  | Some group => <[key := group ++ [task]]> byParent
  | None => <[key := [task]]> byParent
  end.

Definition groupByParent (tasks : list Task.t) : gmap (option Z) (list Task.t) :=
  foldl byParent_add ∅ tasks.

(** [(byParent.get(key) ?? []).slice().sort(compareTasks)] *)
Definition sortedBucket (byParent : gmap (option Z) (list Task.t)) (key : option Z)
    : list Task.t :=
  js_sort compareTasks (default [] (byParent !! key)).

Definition childNumber (number : string) (index : nat) : string :=
  number +:+ "." +:+ pretty (index + 1)%nat.

Fixpoint visit (fuel : nat) (byParent : gmap (option Z) (list Task.t))
    (task : Task.t) (depth : nat) (number : string) (rows : list TaskRow.t)
    : option (list TaskRow.t) :=
  match fuel with
  | O => None
  | Datatypes.S fuel' =>
      let rows := rows ++ [TaskRow.mk task depth number] in
      let children := sortedBucket byParent (Some (Task.id task)) in
      forEachIndexed
        (λ child index rows,
           visit fuel' byParent child (depth + 1)%nat (childNumber number index) rows)
        children 0%nat rows
  end.

Definition buildTaskRows (fuel : nat) (tasks : list Task.t) : option (list TaskRow.t) :=
  let byParent := groupByParent tasks in
  let roots := sortedBucket byParent None in
  forEachIndexed
    (λ root index rows, visit fuel byParent root 0%nat (pretty (index + 1)%nat) rows)
    roots 0%nat [].

(** *** getTaskRange and the timelineRange memo *)

Definition getTaskRange (task : Task.t) : option TaskRange.t :=
  let start := parseDate (Task.startDate task) in
  let end_ := match parseDate (Task.dueDate task) with
              | Some d => Some d
              | None => start
              end in
  match start, end_ with
  | Some s, Some e => Some (TaskRange.mk s e)
  | _, _ => None
  end.

Definition timelineRange (tasks : list Task.t) : option TimelineRange.t :=
  match omap getTaskRange tasks with
  | [] => None
  | r :: rs =>
      let startMs := Math_min (TaskRange.start r) (TaskRange.start <$> rs) in
      let endMs := Math_max (TaskRange.end_ r) (TaskRange.end_ <$> rs) in
      Some (TimelineRange.mk startMs endMs startMs endMs)
  end.

(** The divisor shared by ticks, bars and dependency lines. *)
Definition rangeMs (r : TimelineRange.t) : Z :=
  Z.max 1 (TimelineRange.endMs r - TimelineRange.startMs r).

(** *** timelineTicks *)

Definition tickCount : Z := 4.

Definition tickAt (r : TimelineRange.t) (i : Z) : Tick.t :=
  let ratio := (Qc_of_Z i / Qc_of_Z tickCount)%Qc in
  let tickDate :=
    newDate (Qc_of_Z (TimelineRange.startMs r) + Qc_of_Z (rangeMs r) * ratio)%Qc in
  Tick.mk (formatShortDate (Some tickDate)) (ratio * Qc_of_Z 100)%Qc.

Definition timelineTicks (timelineRange : option TimelineRange.t) : list Tick.t :=
  match timelineRange with
  | None => []
  | Some r => foldl (λ ticks i, ticks ++ [tickAt r i]) [] (seqZ 0 (tickCount + 1))
  end.

(** *** dependencyLines *)

Definition taskIndexById (taskRows : list TaskRow.t) : gmap Z nat :=
  foldl (λ (m : gmap Z nat) (ri : nat * TaskRow.t),
           <[Task.id (TaskRow.task ri.2) := ri.1]> m)
        ∅ (imap (λ index row, (index, row)) taskRows).

Definition toX (r : TimelineRange.t) (timelineWidth : Qc) (date : Z) : Qc :=
  (Qc_of_Z (date - TimelineRange.startMs r) / Qc_of_Z (rangeMs r) * timelineWidth)%Qc.

Definition toY (index : nat) : Qc :=
  (Qc_of_Z (Z.of_nat index) * Qc_of_Z ROW_HEIGHT + Qc_of_Z ROW_HEIGHT / Qc_of_Z 2)%Qc.

Definition lineId (dependencyId taskId : Z) : string :=
  pretty dependencyId +:+ "-" +:+ pretty taskId.

(** Body of the inner [forEach] over [row.task.dependsOn]. *)
Definition dependencyStep (r : TimelineRange.t) (timelineWidth : Qc)
    (index : gmap Z nat) (taskRows : list TaskRow.t)
    (row : TaskRow.t) (rowIndex : nat) (taskRange : TaskRange.t)
    (lines : list Line.t) (dependencyId : Z) : list Line.t :=
  match index !! dependencyId with
  | None => lines
  | Some dependencyIndex =>
      match TaskRow.task <$> taskRows !! dependencyIndex with
      | None => lines
      | Some dependencyTask =>
          match getTaskRange dependencyTask with
          | None => lines
          | Some dependencyRange =>
              lines ++ [Line.mk
                (lineId dependencyId (Task.id (TaskRow.task row)))
                (toX r timelineWidth (TaskRange.end_ dependencyRange))
                (toY dependencyIndex)
                (toX r timelineWidth (TaskRange.start taskRange))
                (toY rowIndex)]
          end
      end
  end.

(** Body of the outer [forEach] over [taskRows]. *)
Definition dependencyRowStep (r : TimelineRange.t) (timelineWidth : Qc)
    (index : gmap Z nat) (taskRows : list TaskRow.t)
    (lines : list Line.t) (ri : nat * TaskRow.t) : list Line.t :=
  let '(rowIndex, row) := ri in
  match getTaskRange (TaskRow.task row) with
  | None => lines
  | Some taskRange =>
      foldl (dependencyStep r timelineWidth index taskRows row rowIndex taskRange)
            lines (Task.dependsOn (TaskRow.task row))
  end.

Definition dependencyLines (index : gmap Z nat) (taskRows : list TaskRow.t)
    (timelineRange : option TimelineRange.t) (timelineWidth : Qc) : list Line.t :=
  match timelineRange with
  | None => []
  | Some r =>
      if decide (timelineWidth = Qc_of_Z 0) then []
      else foldl (dependencyRowStep r timelineWidth index taskRows) []
                 (imap (λ index row, (index, row)) taskRows)
  end.

(** *** gantt__bars *)

Definition barOf (timelineRange : option TimelineRange.t) (index : nat)
    (row : TaskRow.t) : Bar :=
  let task := TaskRow.task row in
  match getTaskRange task, timelineRange with
  | Some range, Some r =>
      let left :=
        (Qc_of_Z (TaskRange.start range - TimelineRange.startMs r)
           / Qc_of_Z (rangeMs r) * Qc_of_Z 100)%Qc in
      let width :=
        (Qc_of_Z (TaskRange.end_ range - TaskRange.start range)
           / Qc_of_Z (rangeMs r) * Qc_of_Z 100)%Qc in
      let barWidth := Qc_max width (Qc_of_Z 1) in
      BarStyled (Task.id task)
        ("gantt__bar gantt__bar--" +:+ status_class (Task.status task))
        (Qc_of_Z (Z.of_nat index * ROW_HEIGHT + ROW_HEIGHT / 2 - 8))
        left barWidth
  | _, _ => BarPlaceholder (Task.id task)
  end.

Definition ganttBars (taskRows : list TaskRow.t)
    (timelineRange : option TimelineRange.t) : list Bar :=
  imap (barOf timelineRange) taskRows.

(** *** The memo chain of [App] for one snapshot *)

Definition app_dependencyLines (fuel : nat) (tasks : list Task.t)
    (timelineWidth : Qc) : option (list Line.t) :=
  taskRows ← buildTaskRows fuel tasks;
  Some (dependencyLines (taskIndexById taskRows) taskRows
          (timelineRange tasks) timelineWidth).


(** *** formatDate and the header label *)

(** [date.toLocaleDateString()] of a valid [Date]. *)
Variable toLocaleDate : Z → string.

(** [formatDate] of [part_000]: a falsy value gives the dash; a string is
    converted first; an invalid date gives back the string, or the dash
    for a [Date] object. *)
Definition formatDate (value : option DateOrString) : string :=
  match value with
  | None => "—"
  | Some (StringValue "") => "—"
  | Some (StringValue s) =>
      match Date_parse s with
      | None => s
      | Some t => toLocaleDate t
      end
  | Some (DateValue None) => "—"
  | Some (DateValue (Some t)) => toLocaleDate t
  end.

(** [formatDate] of the earlier [App.tsx], on [string | null] only. *)
Definition formatDate_v1 (value : option string) : string :=
  match value with
  | None => "—"
  | Some "" => "—"
  | Some s =>
      match Date_parse s with
      | None => s
      | Some t => toLocaleDate t
      end
  end.

Definition timelineRangeLabel (timelineRange : option TimelineRange.t) : string :=
  match timelineRange with
  | Some r =>
      formatDate (Some (DateValue (newDate (Qc_of_Z (TimelineRange.start r)))))
      +:+ " - " +:+
      formatDate (Some (DateValue (newDate (Qc_of_Z (TimelineRange.end_ r)))))
  | None => "No scheduled dates"
  end.

(** *** Project selection *)

(** [projects.find((project) => project.id === selectedProjectId) ?? null] *)
Definition selectedProject (projects : list Project.t) (selectedProjectId : option Z)
    : option Project.t :=
  List.find (λ project, bool_decide (Some (Project.id project) = selectedProjectId))
            projects.

(** The updater [(current) => current ?? data[0]?.id ?? null]. *)
Definition nextSelection (data : list Project.t) (current : option Z) : option Z :=
  match current with
  | Some c => Some c
  | None => Project.id <$> head data
  end.

(** *** Row and overlay layout *)

(** [paddingLeft] of a row, in pixels. *)
Definition rowPadding (row : TaskRow.t) : Z := Z.of_nat (TaskRow.depth row) * 16.

(** [height] of the overlay, in pixels. *)
Definition overlayHeight (taskRows : list TaskRow.t) : Z :=
  Z.of_nat (length taskRows) * ROW_HEIGHT.

(** ** Notions used to state the properties of the outline *)

(** The sorted bucket of [key], read off the input directly. *)
Definition childrenOf (tasks : list Task.t) (key : option Z) : list Task.t :=
  js_sort compareTasks (filter (λ t, Task.parentTaskId t = key) tasks).

(** [rootChain tasks t path]: following parent references from [t] walks
    through the tasks of [path], in that order, and ends at a task with no
    parent. *)
Fixpoint rootChain (tasks : list Task.t) (t : Task.t) (path : list Task.t) : Prop :=
  match path with
  | [] => Task.parentTaskId t = None
  | p :: ps =>
      Task.parentTaskId t = Some (Task.id p) ∧ p ∈ tasks ∧ rootChain tasks p ps
  end.

(** A task is reachable from a root when it is in the input and has a root chain. *)
Definition Reachable (tasks : list Task.t) (t : Task.t) : Prop :=
  t ∈ tasks ∧ ∃ path, rootChain tasks t path.

(** [parentChain tasks t path]: as [rootChain], without the requirement
    to end at a root. *)
Fixpoint parentChain (tasks : list Task.t) (t : Task.t) (path : list Task.t) : Prop :=
  match path with
  | [] => True
  | p :: ps =>
      Task.parentTaskId t = Some (Task.id p) ∧ p ∈ tasks ∧ parentChain tasks p ps
  end.

(** [t] lies on a cycle of parent references (of length one when [t] is
    its own parent). *)
Definition OnCycle (tasks : list Task.t) (t : Task.t) : Prop :=
  ∃ path, parentChain tasks t path ∧ last path = Some t.

(** [Positioned tasks path t]: [path] lists the 0-based sibling positions
    that lead from the sorted roots down to [t]. *)
Inductive Positioned (tasks : list Task.t) : list nat → Task.t → Prop :=
  | Positioned_root (k : nat) (t : Task.t) :
      childrenOf tasks None !! k = Some t →
      Positioned tasks [k] t
  | Positioned_child (path : list nat) (p : Task.t) (k : nat) (c : Task.t) :
      Positioned tasks path p →
      childrenOf tasks (Some (Task.id p)) !! k = Some c →
      Positioned tasks (path ++ [k]) c.

(** The 1-based positions of [path] joined with dots. *)
Definition numberOfPath (path : list nat) : string :=
  match path with
  | [] => ""
  | k :: ks => foldl childNumber (pretty (k + 1)%nat) ks
  end.

(** [s] is [prefix], a dot, and something more. *)
Definition Extends (prefix s : string) : Prop :=
  ∃ rest, s = prefix +:+ "." +:+ rest.

(** The rows pushed by a [forEach] over [l] whose body is [visit], told
    as a relation: the row of each element, numbered by [numbering] at
    its index, is followed by the rows of its sorted children and then by
    the rows of the elements after it. *)
Inductive EmitsAll (kids : option Z → list Task.t)
    : (nat → string) → list Task.t → nat → nat → list TaskRow.t → Prop :=
  | EmitsAll_nil (numbering : nat → string) (index depth : nat) :
      EmitsAll kids numbering [] index depth []
  | EmitsAll_cons (numbering : nat → string) (child : Task.t) (rest : list Task.t)
      (index depth : nat) (below after : list TaskRow.t) :
      EmitsAll kids (childNumber (numbering index))
        (kids (Some (Task.id child))) 0 (depth + 1) below →
      EmitsAll kids numbering rest (S index) depth after →
      EmitsAll kids numbering (child :: rest) index depth
        (TaskRow.mk child depth (numbering index) :: below ++ after).

(** Numbering of the roots. *)
Definition rootNumber (index : nat) : string := pretty (index + 1)%nat.

(** The index that [taskIndexById] keeps for an identifier: the last row
    that carries it. *)
Definition lastIndexOf (taskRows : list TaskRow.t) (id : Z) (i : nat) : Prop :=
  (∃ row, taskRows !! i = Some row ∧ Task.id (TaskRow.task row) = id) ∧
  ∀ j row, taskRows !! j = Some row → Task.id (TaskRow.task row) = id → (j ≤ i)%nat.

Fixpoint dot_free (s : string) : Prop :=
  match s with
  | EmptyString => True
  | String c s' => c ≠ "."%char ∧ dot_free s'
  end.

(** No string is claimed, exactly or as a dotted prefix, by two indices. *)
Definition Separated (numbering : nat → string) : Prop :=
  ∀ i j s,
    (s = numbering i ∨ Extends (numbering i) s) →
    (s = numbering j ∨ Extends (numbering j) s) →
    i = j.

(** [rc] is the row of the [k]-th sorted child of the task of [rp]. *)
Definition ChildRow (kids : option Z → list Task.t) (rp rc : TaskRow.t) (k : nat) : Prop :=
  kids (Some (Task.id (TaskRow.task rp))) !! k = Some (TaskRow.task rc) ∧
  TaskRow.depth rc = (TaskRow.depth rp + 1)%nat ∧
  TaskRow.number rc = childNumber (TaskRow.number rp) k.

(** [r] lies in the branch below [rp]: deeper, and numbered under it. *)
Definition Under (rp r : TaskRow.t) : Prop :=
  (TaskRow.depth rp < TaskRow.depth r)%nat ∧
  Extends (TaskRow.number rp) (TaskRow.number r).

(** The line that one dependency reference of a row gives rise to, if any. *)
Definition lineFor (r : TimelineRange.t) (timelineWidth : Qc)
    (index : gmap Z nat) (taskRows : list TaskRow.t)
    (row : TaskRow.t) (rowIndex : nat) (taskRange : TaskRange.t)
    (dependencyId : Z) : option Line.t :=
  dependencyIndex ← index !! dependencyId;
  dependencyTask ← TaskRow.task <$> taskRows !! dependencyIndex;
  dependencyRange ← getTaskRange dependencyTask;
  Some (Line.mk
    (lineId dependencyId (Task.id (TaskRow.task row)))
    (toX r timelineWidth (TaskRange.end_ dependencyRange))
    (toY dependencyIndex)
    (toX r timelineWidth (TaskRange.start taskRange))
    (toY rowIndex)).

(** The lines of one row, in the order of its dependency list. *)
Definition linesOfRow (r : TimelineRange.t) (timelineWidth : Qc)
    (index : gmap Z nat) (taskRows : list TaskRow.t)
    (ri : nat * TaskRow.t) : list Line.t :=
  match getTaskRange (TaskRow.task ri.2) with
  | None => []
  | Some taskRange =>
      omap (lineFor r timelineWidth index taskRows ri.2 ri.1 taskRange)
           (Task.dependsOn (TaskRow.task ri.2))
  end.

(** The line drawn from the row at [dependencyIndex] to the row at [rowIndex]. *)
Definition lineBetween (r : TimelineRange.t) (timelineWidth : Qc)
    (dependencyIndex : nat) (dependencyRow : TaskRow.t) (dependencyRange : TaskRange.t)
    (rowIndex : nat) (row : TaskRow.t) (taskRange : TaskRange.t) : Line.t :=
  Line.mk
    (lineId (Task.id (TaskRow.task dependencyRow)) (Task.id (TaskRow.task row)))
    (toX r timelineWidth (TaskRange.end_ dependencyRange))
    (toY dependencyIndex)
    (toX r timelineWidth (TaskRange.start taskRange))
    (toY rowIndex).

(** The order of start keys: instants by time, the unscheduled key last. *)
Definition key_le (a b : num) : Prop :=
  match a, b with
  | Fin x, Fin y => x ≤ y
  | Fin _, PosInf => True
  | PosInf, PosInf => True
  | _, _ => False
  end.

(** Number of dots of a string. *)
Fixpoint count_dots (s : string) : nat :=
  match s with
  | EmptyString => 0
  | String c s' => ((if decide (c = "."%char) then 1 else 0) + count_dots s')%nat
  end.

Fixpoint has_dash (s : string) : bool :=
  match s with
  | EmptyString => false
  | String c s' => bool_decide (c = "-"%char) || has_dash s'
  end.

(** The top of a styled bar, [None] for a placeholder. *)
Definition barTop (bar : Bar) : option Qc :=
  match bar with
  | BarPlaceholder _ => None
  | BarStyled _ _ top _ _ => Some top
  end.

Definition barKey (bar : Bar) : Z :=
  match bar with
  | BarPlaceholder key => key
  | BarStyled key _ _ _ _ => key
  end.

Definition isPlaceholder (bar : Bar) : bool :=
  match bar with
  | BarPlaceholder _ => true
  | BarStyled _ _ _ _ _ => false
  end.
(** * Properties *)

(** ** Extremes of a non-empty argument list *)

Lemma Math_min_le_acc (x : Z) (xs : list Z) : Math_min x xs ≤ x.
Proof.
  unfold Math_min. revert x.
  induction xs as [|y ys IH]; intros x; simpl; [lia|].
  specialize (IH (Z.min x y)). lia.
Qed.

Lemma Math_min_lower (x : Z) (xs : list Z) (y : Z) :
  y ∈ x :: xs → Math_min x xs ≤ y.
Proof.
  unfold Math_min. revert x.
  induction xs as [|z zs IH]; intros x Hy; simpl.
  - apply list_elem_of_singleton in Hy. lia.
  - apply elem_of_cons in Hy as [->|Hy].
    + pose proof (Math_min_le_acc (Z.min x z) zs) as H. unfold Math_min in H. lia.
    + apply elem_of_cons in Hy as [->|Hy].
      * pose proof (Math_min_le_acc (Z.min x z) zs) as H. unfold Math_min in H. lia.
      * apply IH. by right.
Qed.

Lemma Math_min_elem (x : Z) (xs : list Z) : Math_min x xs ∈ x :: xs.
Proof.
  unfold Math_min. revert x.
  induction xs as [|z zs IH]; intros x; simpl; [by left|].
  specialize (IH (Z.min x z)).
  apply elem_of_cons in IH as [->|IH].
  - destruct (Z.min_spec x z) as [[_ ->]|[_ ->]]; [by left|by right; left].
  - by do 2 right.
Qed.

Lemma Math_max_ge_acc (x : Z) (xs : list Z) : x ≤ Math_max x xs.
Proof.
  unfold Math_max. revert x.
  induction xs as [|y ys IH]; intros x; simpl; [lia|].
  specialize (IH (Z.max x y)). lia.
Qed.

Lemma Math_max_upper (x : Z) (xs : list Z) (y : Z) :
  y ∈ x :: xs → y ≤ Math_max x xs.
Proof.
  unfold Math_max. revert x.
  induction xs as [|z zs IH]; intros x Hy; simpl.
  - apply list_elem_of_singleton in Hy. lia.
  - apply elem_of_cons in Hy as [->|Hy].
    + pose proof (Math_max_ge_acc (Z.max x z) zs) as H. unfold Math_max in H. lia.
    + apply elem_of_cons in Hy as [->|Hy].
      * pose proof (Math_max_ge_acc (Z.max x z) zs) as H. unfold Math_max in H. lia.
      * apply IH. by right.
Qed.

Lemma Math_max_elem (x : Z) (xs : list Z) : Math_max x xs ∈ x :: xs.
Proof.
  unfold Math_max. revert x.
  induction xs as [|z zs IH]; intros x; simpl; [by left|].
  specialize (IH (Z.max x z)).
  apply elem_of_cons in IH as [->|IH].
  - destruct (Z.max_spec x z) as [[_ ->]|[_ ->]]; [by right; left|by left].
  - by do 2 right.
Qed.

Lemma Qc_max_ge_r (x y : Qc) : (y ≤ Qc_max x y)%Qc.
Proof.
  unfold Qc_max. case_decide as H; [done|].
  apply Qclt_le_weak, Qclt_nge, H.
Qed.

Lemma Qc_max_ge_l (x y : Qc) : (x ≤ Qc_max x y)%Qc.
Proof. unfold Qc_max. case_decide as H; done. Qed.

Lemma Qc_max_cases (x y : Qc) : Qc_max x y = x ∨ Qc_max x y = y.
Proof. unfold Qc_max. case_decide; auto. Qed.

Lemma getTaskRange_unfold (task : Task.t) :
  getTaskRange task =
    match parseDate (Task.startDate task) with
    | Some s => Some (TaskRange.mk s (default s (parseDate (Task.dueDate task))))
    | None => None
    end.
Proof.
  unfold getTaskRange.
  destruct (parseDate (Task.startDate task)), (parseDate (Task.dueDate task)); done.
Qed.

Lemma getTaskRange_is_Some (task : Task.t) :
  is_Some (getTaskRange task) ↔ is_Some (parseDate (Task.startDate task)).
Proof.
  rewrite getTaskRange_unfold.
  destruct (parseDate (Task.startDate task)); split; intros [? ?]; by eauto.
Qed.

Lemma timelineRange_None (tasks : list Task.t) :
  timelineRange tasks = None ↔
  ∀ task, task ∈ tasks → parseDate (Task.startDate task) = None.
Proof.
  unfold timelineRange. split.
  - intros H task Hin.
    destruct (omap getTaskRange tasks) as [|r rs] eqn:E; [|done].
    destruct (parseDate (Task.startDate task)) as [s|] eqn:Es; [|done].
    assert (is_Some (getTaskRange task)) as [x Hx].
    { apply getTaskRange_is_Some. rewrite Es. eauto. }
    assert (x ∈ omap getTaskRange tasks) as Hx'.
    { apply list_elem_of_omap. eauto. }
    rewrite E in Hx'. by apply elem_of_nil in Hx'.
  - intros H.
    destruct (omap getTaskRange tasks) as [|r rs] eqn:E; [done|].
    assert (r ∈ omap getTaskRange tasks) as Hr by (rewrite E; by left).
    apply list_elem_of_omap in Hr as (task & Hin & Hr).
    assert (is_Some (parseDate (Task.startDate task))) as [s Hs].
    { apply getTaskRange_is_Some. eauto. }
    rewrite (H task Hin) in Hs. done.
Qed.

Lemma timelineRange_Some (tasks : list Task.t) (r : TimelineRange.t) :
  timelineRange tasks = Some r →
  (∃ x, x ∈ omap getTaskRange tasks ∧ TimelineRange.startMs r = TaskRange.start x) ∧
  (∀ x, x ∈ omap getTaskRange tasks → TimelineRange.startMs r ≤ TaskRange.start x) ∧
  (∃ x, x ∈ omap getTaskRange tasks ∧ TimelineRange.endMs r = TaskRange.end_ x) ∧
  (∀ x, x ∈ omap getTaskRange tasks → TaskRange.end_ x ≤ TimelineRange.endMs r) ∧
  TimelineRange.start r = TimelineRange.startMs r ∧
  TimelineRange.end_ r = TimelineRange.endMs r.
Proof.
  unfold timelineRange. intros H.
  destruct (omap getTaskRange tasks) as [|x0 xs]; [done|].
  injection H as <-. simpl.
  split; [|split; [|split; [|split]]].
  - pose proof (Math_min_elem (TaskRange.start x0) (TaskRange.start <$> xs)) as Hm.
    change (Math_min (TaskRange.start x0) (TaskRange.start <$> xs)
              ∈ TaskRange.start <$> (x0 :: xs)) in Hm.
    apply list_elem_of_fmap in Hm as (x & Hx & Hin). eauto.
  - intros x Hx. apply Math_min_lower.
    change (TaskRange.start x ∈ TaskRange.start <$> (x0 :: xs)).
    by apply list_elem_of_fmap_2.
  - pose proof (Math_max_elem (TaskRange.end_ x0) (TaskRange.end_ <$> xs)) as Hm.
    change (Math_max (TaskRange.end_ x0) (TaskRange.end_ <$> xs)
              ∈ TaskRange.end_ <$> (x0 :: xs)) in Hm.
    apply list_elem_of_fmap in Hm as (x & Hx & Hin). eauto.
  - intros x Hx. apply Math_max_upper.
    change (TaskRange.end_ x ∈ TaskRange.end_ <$> (x0 :: xs)).
    by apply list_elem_of_fmap_2.
  - done.
Qed.

Lemma rangeMs_pos (r : TimelineRange.t) : 1 ≤ rangeMs r.
Proof. unfold rangeMs. lia. Qed.


(** ** The comparator *)

Lemma startKey_Fin (a : Task.t) (t : Z) :
  parseDate (Task.startDate a) = Some t → startKey a = Fin t.
Proof. unfold startKey. by intros ->. Qed.

Lemma startKey_PosInf (a : Task.t) :
  parseDate (Task.startDate a) = None → startKey a = PosInf.
Proof. unfold startKey. by intros ->. Qed.

Lemma num_strict_ne_refl (v : num) : v ≠ NaN → num_strict_ne v v = false.
Proof. destruct v; simpl; try done. intros _. by rewrite Z.eqb_refl. Qed.

Lemma startKey_not_NaN (a : Task.t) : startKey a ≠ NaN.
Proof. unfold startKey. by destruct (parseDate (Task.startDate a)). Qed.

(** C3 (as amended).  [compareTasks] orders two tasks by resolved start
    date, the earlier one first; a task whose start date does not resolve
    compares as positive infinity and so comes after every scheduled
    task; when the start keys are equal (the same instant, or both
    unresolved) the result is the host's [localeCompare] of the two names,
    so ties are broken by the host collation of the names, ascending. *)
Theorem compareTasks_order (a b : Task.t) :
  (∀ ta tb, parseDate (Task.startDate a) = Some ta →
            parseDate (Task.startDate b) = Some tb → ta < tb →
            num_neg (compareTasks a b) = true ∧ num_pos (compareTasks b a) = true) ∧
  (∀ ta, parseDate (Task.startDate a) = Some ta →
         parseDate (Task.startDate b) = None →
         compareTasks a b = NegInf ∧ compareTasks b a = PosInf) ∧
  (startKey a = startKey b →
   compareTasks a b = Fin (localeCompare (Task.name a) (Task.name b))).
Proof.
  split; [|split].
  - intros ta tb Ha Hb Hlt. unfold compareTasks.
    rewrite (startKey_Fin a ta Ha), (startKey_Fin b tb Hb). simpl.
    destruct (Z.eqb_spec ta tb) as [?|_]; [lia|].
    destruct (Z.eqb_spec tb ta) as [?|_]; [lia|]. simpl.
    split; [apply Z.ltb_lt|apply Z.ltb_lt]; lia.
  - intros ta Ha Hb. unfold compareTasks.
    by rewrite (startKey_Fin a ta Ha), (startKey_PosInf b Hb).
  - intros Heq. unfold compareTasks. rewrite Heq.
    by rewrite num_strict_ne_refl by apply startKey_not_NaN.
Qed.

(** ** Intervals and the overall range *)

(** C4.  A task's interval is [resolved start, resolved due], the due
    date falling back to the start date; there is no interval without a
    resolved start date, whatever the due date.  The overall range is
    absent exactly when no task has a resolved start date; otherwise its
    start is the least interval start and its end the greatest interval
    end over the tasks that have an interval. *)
Theorem timelineRange_spec (tasks : list Task.t) :
  (∀ task, getTaskRange task =
     match parseDate (Task.startDate task) with
     | Some s => Some (TaskRange.mk s (default s (parseDate (Task.dueDate task))))
     | None => None
     end) ∧
  (timelineRange tasks = None ↔
     ∀ task, task ∈ tasks → parseDate (Task.startDate task) = None) ∧
  (∀ r, timelineRange tasks = Some r →
     (∃ task x, task ∈ tasks ∧ getTaskRange task = Some x ∧
                TimelineRange.startMs r = TaskRange.start x) ∧
     (∀ task x, task ∈ tasks → getTaskRange task = Some x →
                TimelineRange.startMs r ≤ TaskRange.start x) ∧
     (∃ task x, task ∈ tasks ∧ getTaskRange task = Some x ∧
                TimelineRange.endMs r = TaskRange.end_ x) ∧
     (∀ task x, task ∈ tasks → getTaskRange task = Some x →
                TaskRange.end_ x ≤ TimelineRange.endMs r) ∧
     TimelineRange.start r = TimelineRange.startMs r ∧
     TimelineRange.end_ r = TimelineRange.endMs r).
Proof.
  split; [apply getTaskRange_unfold|].
  split; [apply timelineRange_None|].
  intros r Hr.
  destruct (timelineRange_Some tasks r Hr) as ((x1 & Hx1 & E1) & Hlo & (x2 & Hx2 & E2) & Hhi & Hs & He).
  apply list_elem_of_omap in Hx1 as (t1 & Ht1 & Hg1).
  apply list_elem_of_omap in Hx2 as (t2 & Ht2 & Hg2).
  repeat split; eauto 6.
  - intros task x Hin Hx. apply Hlo, list_elem_of_omap. eauto.
  - intros task x Hin Hx. apply Hhi, list_elem_of_omap. eauto.
Qed.

(** C1 (as amended).  When the range is present, the duration used as a
    divisor, [Math.max(1, endMs - startMs)], is at least one millisecond,
    hence never zero, and the end used for ratios is at least one
    millisecond after the start; the range's start is not after its end
    as soon as one task with an interval has its interval's end not
    before its start. *)
Theorem timelineRange_divisor (tasks : list Task.t) (r : TimelineRange.t) :
  timelineRange tasks = Some r →
  rangeMs r = Z.max 1 (TimelineRange.endMs r - TimelineRange.startMs r) ∧
  1 ≤ rangeMs r ∧ rangeMs r ≠ 0 ∧
  TimelineRange.startMs r + 1 ≤ TimelineRange.startMs r + rangeMs r ∧
  ((∃ task x, task ∈ tasks ∧ getTaskRange task = Some x ∧
              TaskRange.start x ≤ TaskRange.end_ x) →
   TimelineRange.startMs r ≤ TimelineRange.endMs r).
Proof.
  intros Hr. pose proof (rangeMs_pos r) as Hpos.
  split; [done|]. split; [done|]. split; [lia|]. split; [lia|].
  intros (task & x & Hin & Hx & Hle).
  destruct (timelineRange_Some tasks r Hr) as (_ & Hlo & _ & Hhi & _).
  assert (x ∈ omap getTaskRange tasks) as Hx' by (apply list_elem_of_omap; eauto).
  specialize (Hlo x Hx'). specialize (Hhi x Hx'). lia.
Qed.

(** ** Ticks *)

Lemma Qc_of_Z_quarter (i p : Z) :
  p = 25 * i → (Qc_of_Z i / Qc_of_Z tickCount * Qc_of_Z 100)%Qc = Qc_of_Z p.
Proof.
  intros ->. apply Qc_is_canon. unfold tickCount. simpl.
  rewrite !Qred_correct.
  unfold Qeq, Qdiv, Qmult, Qinv, inject_Z. simpl. lia.
Qed.

(** C9.  With a range present there are exactly five ticks, at 0, 25, 50,
    75 and 100 percent, the tick at [i] quarters being labelled with the
    date at [i/4] of the duration after the range's start; with no range
    there is no tick. *)
Theorem timelineTicks_spec :
  timelineTicks None = [] ∧
  ∀ r : TimelineRange.t,
    length (timelineTicks (Some r)) = 5%nat ∧
    Tick.position <$> timelineTicks (Some r) = Qc_of_Z <$> [0; 25; 50; 75; 100] ∧
    Tick.label <$> timelineTicks (Some r) =
      (λ i, toLocaleShort
              (newDate (Qc_of_Z (TimelineRange.startMs r)
                        + Qc_of_Z (rangeMs r) * (Qc_of_Z i / Qc_of_Z 4))%Qc))
        <$> [0; 1; 2; 3; 4].
Proof.
  split; [done|]. intros r.
  unfold timelineTicks. change (seqZ 0 (tickCount + 1)) with [0; 1; 2; 3; 4].
  cbn [foldl app length fmap list_fmap]. split; [done|]. split; [|done].
  unfold tickAt. cbn [Tick.position].
  by rewrite (Qc_of_Z_quarter 0 0), (Qc_of_Z_quarter 1 25), (Qc_of_Z_quarter 2 50),
    (Qc_of_Z_quarter 3 75), (Qc_of_Z_quarter 4 100) by done.
Qed.

(** ** Bars *)

(** C10.  For a row whose task has an interval, with a range present, the
    bar's left offset is [(start - rangeStart) / rangeDuration * 100] and
    its width is the larger of [(end - start) / rangeDuration * 100] and
    [1]: it is at least that ratio, at least 1, and equal to one of the
    two; so every such bar is at least 1% wide, also when the start date
    equals the due date.  [rangeDuration] is [max(1, endMs - startMs)],
    which is positive. *)
Theorem ganttBars_geometry (taskRows : list TaskRow.t) (r : TimelineRange.t)
    (index : nat) (row : TaskRow.t) (range : TaskRange.t) :
  taskRows !! index = Some row →
  getTaskRange (TaskRow.task row) = Some range →
  ∃ className top left width raw,
    ganttBars taskRows (Some r) !! index
      = Some (BarStyled (Task.id (TaskRow.task row)) className top left width) ∧
    left = (Qc_of_Z (TaskRange.start range - TimelineRange.startMs r)
              / Qc_of_Z (Z.max 1 (TimelineRange.endMs r - TimelineRange.startMs r))
              * Qc_of_Z 100)%Qc ∧
    raw = (Qc_of_Z (TaskRange.end_ range - TaskRange.start range)
             / Qc_of_Z (Z.max 1 (TimelineRange.endMs r - TimelineRange.startMs r))
             * Qc_of_Z 100)%Qc ∧
    (raw ≤ width)%Qc ∧
    (Qc_of_Z 1 ≤ width)%Qc ∧
    (width = raw ∨ width = Qc_of_Z 1) ∧
    (TaskRange.start range = TaskRange.end_ range → width = Qc_of_Z 1) ∧
    0 < Z.max 1 (TimelineRange.endMs r - TimelineRange.startMs r).
Proof.
  intros Hrow Hrange. unfold ganttBars.
  rewrite list_lookup_imap, Hrow. simpl. unfold barOf. rewrite Hrange.
  unfold rangeMs. do 5 eexists. split; [reflexivity|]. split; [done|]. split; [done|].
  split; [apply Qc_max_ge_l|]. split; [apply Qc_max_ge_r|].
  split; [apply Qc_max_cases|]. split; [|lia].
  intros ->. rewrite Z.sub_diag. unfold Qc_max. rewrite decide_True; [done|].
  unfold Qcdiv. rewrite Z2Qc_inj_0, !Qcmult_0_l. rewrite <- Z2Qc_inj_0.
  apply (proj1 (Z2Qc_inj_le 0 1)). lia.
Qed.

(** Every styled bar of the block, whatever its task, is at least 1% wide. *)
Lemma ganttBars_min_width (taskRows : list TaskRow.t)
    (tr : option TimelineRange.t) (key : Z) (className : string) (top left width : Qc) :
  BarStyled key className top left width ∈ ganttBars taskRows tr →
  (Qc_of_Z 1 ≤ width)%Qc.
Proof.
  unfold ganttBars. intros Hin.
  apply list_elem_of_lookup in Hin as (i & Hi).
  rewrite list_lookup_imap in Hi.
  destruct (taskRows !! i) as [row|]; [|done]. simpl in Hi.
  injection Hi as Hi. unfold barOf in Hi.
  destruct (getTaskRange (TaskRow.task row)), tr; try done.
  injection Hi as _ _ _ _ <-. apply Qc_max_ge_r.
Qed.

(** ** Sorting, grouping and the shape of the traversal *)

Lemma sort_insert_Permutation {A : Type} (cmp : A → A → num) (x : A) (l : list A) :
  sort_insert cmp x l ≡ₚ x :: l.
Proof.
  induction l as [|y l IH]; simpl; [done|].
  destruct (num_pos (cmp x y)); [|done].
  rewrite IH. apply Permutation_swap.
Qed.

Lemma js_sort_Permutation {A : Type} (cmp : A → A → num) (l : list A) :
  js_sort cmp l ≡ₚ l.
Proof.
  induction l as [|x l IH]; simpl; [done|].
  by rewrite sort_insert_Permutation, IH.
Qed.

Lemma groupByParent_lookup (tasks : list Task.t) (key : option Z) :
  default [] (groupByParent tasks !! key)
  = filter (λ t, Task.parentTaskId t = key) tasks.
Proof.
  unfold groupByParent.
  induction tasks as [|x l IH] using rev_ind; [done|].
  rewrite foldl_app, filter_app. simpl. unfold byParent_add at 1.
  destruct (foldl byParent_add ∅ l !! Task.parentTaskId x) as [group|] eqn:E.
  - destruct (decide (Task.parentTaskId x = key)) as [Heq|Hne]; [subst key|].
    + rewrite lookup_insert_eq. simpl. rewrite E in IH. simpl in IH.
      rewrite IH. by rewrite (filter_cons_True _ x []) by done.
    + rewrite lookup_insert_ne by done. rewrite IH.
      rewrite (filter_cons_False _ x []) by done. by rewrite app_nil_r.
  - destruct (decide (Task.parentTaskId x = key)) as [Heq|Hne]; [subst key|].
    + rewrite lookup_insert_eq. simpl. rewrite E in IH. simpl in IH.
      rewrite <- IH. by rewrite (filter_cons_True _ x []) by done.
    + rewrite lookup_insert_ne by done. rewrite IH.
      rewrite (filter_cons_False _ x []) by done. by rewrite app_nil_r.
Qed.

Lemma sortedBucket_childrenOf (tasks : list Task.t) (key : option Z) :
  sortedBucket (groupByParent tasks) key = childrenOf tasks key.
Proof. unfold sortedBucket, childrenOf. by rewrite groupByParent_lookup. Qed.

Lemma elem_of_childrenOf (tasks : list Task.t) (key : option Z) (t : Task.t) :
  t ∈ childrenOf tasks key ↔ Task.parentTaskId t = key ∧ t ∈ tasks.
Proof.
  unfold childrenOf. rewrite js_sort_Permutation. by rewrite list_elem_of_filter.
Qed.

Lemma childrenOf_lookup (tasks : list Task.t) (key : option Z) (k : nat) (t : Task.t) :
  childrenOf tasks key !! k = Some t → Task.parentTaskId t = key ∧ t ∈ tasks.
Proof. intros H. apply elem_of_childrenOf, list_elem_of_lookup. eauto. Qed.

Lemma NoDup_childrenOf (tasks : list Task.t) (key : option Z) :
  NoDup tasks → NoDup (childrenOf tasks key).
Proof.
  intros H. unfold childrenOf. rewrite js_sort_Permutation. by apply NoDup_filter.
Qed.

Lemma NoDup_ids_tasks (tasks : list Task.t) :
  NoDup (Task.id <$> tasks) → NoDup tasks.
Proof. apply NoDup_fmap_1. Qed.

Lemma unique_id (tasks : list Task.t) (a b : Task.t) :
  NoDup (Task.id <$> tasks) → a ∈ tasks → b ∈ tasks → Task.id a = Task.id b → a = b.
Proof.
  intros Hnd Ha Hb Heq.
  apply list_elem_of_lookup in Ha as (i & Hi).
  apply list_elem_of_lookup in Hb as (j & Hj).
  assert (i = j) as ->.
  { eapply NoDup_lookup; [exact Hnd| |].
    - rewrite list_lookup_fmap, Hi. reflexivity.
    - rewrite list_lookup_fmap, Hj. simpl. by rewrite Heq. }
  congruence.
Qed.

(** *** From the run of [visit] to the relation *)

Lemma forEachIndexed_emits (kids : option Z → list Task.t)
    (body : Task.t → nat → list TaskRow.t → option (list TaskRow.t))
    (numbering : nat → string) (depth : nat) :
  (∀ child index rows rows',
     body child index rows = Some rows' →
     ∃ below, rows' = rows ++ TaskRow.mk child depth (numbering index) :: below ∧
       EmitsAll kids (childNumber (numbering index))
         (kids (Some (Task.id child))) 0 (depth + 1) below) →
  ∀ l index rows rows',
    forEachIndexed body l index rows = Some rows' →
    ∃ out, rows' = rows ++ out ∧ EmitsAll kids numbering l index depth out.
Proof.
  intros Hbody l. induction l as [|x l IH]; intros index rows rows' H; simpl in H.
  - injection H as <-. exists []. split; [by rewrite app_nil_r|constructor].
  - destruct (body x index rows) as [rows1|] eqn:E; [|done].
    apply Hbody in E as (below & -> & Hbelow).
    apply IH in H as (after & -> & Hafter).
    exists (TaskRow.mk x depth (numbering index) :: below ++ after).
    split; [by rewrite <- app_assoc|]. by constructor.
Qed.

Lemma visit_emits (tasks : list Task.t) (fuel : nat) :
  ∀ task depth number rows rows',
    visit fuel (groupByParent tasks) task depth number rows = Some rows' →
    ∃ below, rows' = rows ++ TaskRow.mk task depth number :: below ∧
      EmitsAll (childrenOf tasks) (childNumber number)
        (childrenOf tasks (Some (Task.id task))) 0 (depth + 1) below.
Proof.
  induction fuel as [|fuel IH]; intros task depth number rows rows' H; [done|].
  simpl in H. rewrite sortedBucket_childrenOf in H.
  eapply (forEachIndexed_emits (childrenOf tasks) _ (childNumber number) (depth + 1))
    in H as (out & -> & Hout).
  - exists out. split; [by rewrite <- app_assoc|done].
  - intros child index rows0 rows0' Hc. by apply IH in Hc.
Qed.

Lemma buildTaskRows_emits (tasks : list Task.t) (fuel : nat) (rows : list TaskRow.t) :
  buildTaskRows fuel tasks = Some rows →
  EmitsAll (childrenOf tasks) rootNumber (childrenOf tasks None) 0 0 rows.
Proof.
  unfold buildTaskRows. rewrite sortedBucket_childrenOf. intros H.
  eapply (forEachIndexed_emits (childrenOf tasks) _ rootNumber 0%nat)
    in H as (out & -> & Hout); [done|].
  intros child index rows0 rows0' Hc. by apply visit_emits in Hc.
Qed.

(** ** Dotted numbers *)

Lemma string_app_cons (c : ascii) (a b : string) :
  String c a +:+ b = String c (a +:+ b).
Proof. reflexivity. Qed.

Lemma string_app_nil_r (a : string) : a +:+ "" = a.
Proof. induction a as [|c a IH]; [done|]. by rewrite string_app_cons, IH. Qed.

Lemma string_app_assoc (a b c : string) : (a +:+ b) +:+ c = a +:+ b +:+ c.
Proof.
  induction a as [|x a IH]; [done|]. by rewrite !string_app_cons, IH.
Qed.

Lemma string_app_length (a b : string) :
  String.length (a +:+ b) = (String.length a + String.length b)%nat.
Proof.
  induction a as [|x a IH]; [done|]. rewrite string_app_cons. simpl. by rewrite IH.
Qed.

Lemma pretty_N_char_not_dot (x : N) : pretty_N_char x ≠ "."%char.
Proof. unfold pretty_N_char. by repeat case_match. Qed.

Lemma pretty_N_go_dot_free (x : N) (s : string) :
  dot_free s → dot_free (pretty_N_go x s).
Proof.
  revert s. induction (N.lt_wf_0 x) as [x _ IH]. intros s Hs.
  destruct (decide (x = 0%N)) as [->|Hx]; [by rewrite pretty_N_go_0|].
  rewrite pretty_N_go_step by lia. apply IH.
  - apply N.div_lt; lia.
  - simpl. split; [apply pretty_N_char_not_dot|done].
Qed.

Lemma pretty_nat_dot_free (n : nat) : dot_free (pretty n).
Proof.
  unfold pretty, pretty_nat, pretty, pretty_N.
  case_decide; [by simpl|]. by apply pretty_N_go_dot_free.
Qed.

Lemma dot_free_split (a b t1 t2 : string) :
  dot_free a → dot_free b →
  (t1 = "" ∨ ∃ r, t1 = "." +:+ r) →
  (t2 = "" ∨ ∃ r, t2 = "." +:+ r) →
  a +:+ t1 = b +:+ t2 → a = b ∧ t1 = t2.
Proof.
  revert b. induction a as [|x a IH]; intros [|y b] Ha Hb H1 H2 Heq.
  - done.
  - exfalso. simpl in Hb. destruct Hb as [Hy _].
    change ("" +:+ t1) with t1 in Heq. rewrite string_app_cons in Heq.
    destruct H1 as [->|[r ->]]; [done|].
    change ("." +:+ r) with (String "." r) in Heq. congruence.
  - exfalso. simpl in Ha. destruct Ha as [Hx _].
    change ("" +:+ t2) with t2 in Heq. rewrite string_app_cons in Heq.
    destruct H2 as [->|[r ->]]; [done|].
    change ("." +:+ r) with (String "." r) in Heq. congruence.
  - rewrite !string_app_cons in Heq. injection Heq as -> Heq.
    simpl in Ha, Hb. destruct Ha as [_ Ha], Hb as [_ Hb].
    destruct (IH b Ha Hb H1 H2 Heq) as [-> ->]. done.
Qed.

Lemma Extends_irrefl (x : string) : ¬ Extends x x.
Proof.
  intros [rest H]. apply (f_equal String.length) in H.
  rewrite !string_app_length in H. simpl in H. lia.
Qed.

Lemma Extends_childNumber (x s : string) (k : nat) :
  s = childNumber x k ∨ Extends (childNumber x k) s → Extends x s.
Proof.
  unfold childNumber. intros [->|[rest ->]].
  - by eexists.
  - exists (pretty (k + 1)%nat +:+ "." +:+ rest). by rewrite !string_app_assoc.
Qed.

Lemma tail_shape (x s : string) :
  s = x ∨ Extends x s → ∃ t, s = x +:+ t ∧ (t = "" ∨ ∃ r, t = "." +:+ r).
Proof.
  intros [->|[rest ->]].
  - exists "". by rewrite string_app_nil_r; eauto.
  - exists ("." +:+ rest). eauto.
Qed.

Lemma Separated_rootNumber : Separated rootNumber.
Proof.
  intros i j s Hi Hj. unfold rootNumber in *.
  apply tail_shape in Hi as (t1 & -> & H1). apply tail_shape in Hj as (t2 & Heq & H2).
  apply dot_free_split in Heq as [Heq _]; auto using pretty_nat_dot_free.
  apply (inj pretty) in Heq. lia.
Qed.

Lemma Separated_childNumber (x : string) : Separated (childNumber x).
Proof.
  intros i j s Hi Hj. unfold childNumber in *.
  apply tail_shape in Hi as (t1 & -> & H1). apply tail_shape in Hj as (t2 & Heq & H2).
  rewrite !string_app_assoc in Heq.
  apply (inj (String.app x)) in Heq. apply (inj (String.app ".")) in Heq.
  apply dot_free_split in Heq as [Heq _]; auto using pretty_nat_dot_free.
  apply (inj pretty) in Heq. lia.
Qed.

Lemma numberOfPath_snoc (path : list nat) (k : nat) :
  path ≠ [] → numberOfPath (path ++ [k]) = childNumber (numberOfPath path) k.
Proof.
  destruct path as [|j ks]; [done|]. intros _. simpl. by rewrite foldl_app.
Qed.

(** ** Structure of the emitted rows *)

Section Emits.
Variable kids : option Z → list Task.t.

(** Every row of a [forEach] is at least as deep as the level it runs
    at, and is numbered by, or under, the number of one of its elements. *)
Lemma EmitsAll_within (numbering : nat → string) (l : list Task.t)
    (index depth : nat) (rows : list TaskRow.t) :
  EmitsAll kids numbering l index depth rows →
  Forall (λ r, (depth ≤ TaskRow.depth r)%nat ∧
               ∃ k, (k < length l)%nat ∧
                    (TaskRow.number r = numbering (index + k)%nat ∨
                     Extends (numbering (index + k)%nat) (TaskRow.number r)))
         rows.
Proof.
  induction 1 as [|numbering child rest index depth below after _ IHb _ IHa].
  - constructor.
  - constructor; [|apply Forall_app; split].
    + simpl. split; [lia|]. exists 0%nat. rewrite Nat.add_0_r. split; [lia|by left].
    + eapply Forall_impl; [exact IHb|]. simpl.
      intros r (Hd & k & _ & Hk). split; [lia|].
      exists 0%nat. rewrite Nat.add_0_r. split; [lia|]. right.
      by apply (Extends_childNumber _ _ (0 + k)).
    + eapply Forall_impl; [exact IHa|]. simpl.
      intros r (Hd & k & Hlt & Hk). split; [done|].
      exists (S k). split; [lia|]. by replace (index + S k)%nat with (S index + k)%nat by lia.
Qed.

Lemma EmitsAll_below_Under (numbering : nat → string) (child : Task.t)
    (index depth : nat) (below : list TaskRow.t) :
  EmitsAll kids (childNumber (numbering index))
    (kids (Some (Task.id child))) 0 (depth + 1) below →
  Forall (Under (TaskRow.mk child depth (numbering index))) below.
Proof.
  intros H. eapply Forall_impl; [exact (EmitsAll_within _ _ _ _ _ H)|]. simpl.
  intros r (Hd & k & _ & Hk). split; simpl; [lia|].
  by apply (Extends_childNumber _ _ (0 + k)).
Qed.

Lemma EmitsAll_NoDup_number (numbering : nat → string) (l : list Task.t)
    (index depth : nat) (rows : list TaskRow.t) :
  EmitsAll kids numbering l index depth rows →
  Separated numbering →
  NoDup (TaskRow.number <$> rows).
Proof.
  induction 1 as [|numbering child rest index depth below after Hb IHb Ha IHa];
    intros Hsep; [constructor|].
  pose proof (EmitsAll_below_Under _ _ _ _ _ Hb) as Hunder.
  pose proof (EmitsAll_within _ _ _ _ _ Ha) as Hafter.
  rewrite Forall_forall in Hunder, Hafter.
  rewrite fmap_cons, fmap_app. simpl. apply NoDup_cons. split.
  - rewrite elem_of_app. intros [Hin|Hin];
      apply list_elem_of_fmap in Hin as (r & Hr & Hin).
    + destruct (Hunder r Hin) as [_ Hext]. simpl in Hext.
      rewrite <- Hr in Hext. by apply Extends_irrefl in Hext.
    + destruct (Hafter r Hin) as (_ & k & _ & Hk).
      assert (index = (S index + k)%nat) as Hbad; [|lia].
      apply (Hsep _ _ (numbering index)); [by left|]. by rewrite Hr.
  - apply NoDup_app. split; [apply IHb, Separated_childNumber|]. split; [|by apply IHa].
    intros s Hs1 Hs2.
    apply list_elem_of_fmap in Hs1 as (r1 & -> & Hin1).
    apply list_elem_of_fmap in Hs2 as (r2 & Hr & Hin2).
    destruct (Hunder r1 Hin1) as [_ Hext]. simpl in Hext.
    destruct (Hafter r2 Hin2) as (_ & k & _ & Hk). rewrite <- Hr in Hk.
    assert (index = (S index + k)%nat) as Hbad; [|lia].
    apply (Hsep _ _ (TaskRow.number r1)); [by right|done].
Qed.

(** Each row is either the row of an element of the [forEach], or the
    row of a sorted child of an earlier row, everything between the two
    lying in the branch below that earlier row. *)
Lemma EmitsAll_linked (numbering : nat → string) (l : list Task.t)
    (index depth : nat) (rows : list TaskRow.t) :
  EmitsAll kids numbering l index depth rows →
  ∀ pre rc post, rows = pre ++ rc :: post →
    (∃ k, l !! k = Some (TaskRow.task rc) ∧ TaskRow.depth rc = depth ∧
          TaskRow.number rc = numbering (index + k)%nat) ∨
    (∃ pre' rp mid k, pre = pre' ++ rp :: mid ∧ ChildRow kids rp rc k ∧
                      Forall (Under rp) mid).
Proof.
  induction 1 as [|numbering child rest index depth below after Hb IHb Ha IHa];
    intros pre rc post Heq.
  { by destruct pre. }
  destruct pre as [|r0 pre1]; simpl in Heq.
  { injection Heq as <- _. left. exists 0%nat. by rewrite Nat.add_0_r. }
  injection Heq as <- Heq.
  assert ((∃ post1, below = pre1 ++ rc :: post1) ∨
          (∃ pre2, pre1 = below ++ pre2 ∧ after = pre2 ++ rc :: post)) as [[post1 E]|[pre2 [E1 E2]]].
  { apply app_eq_inv in Heq as [(k & E1 & E2)|(k & E1 & E2)].
    - destruct k as [|x k]; simpl in E2.
      + right. exists []. rewrite app_nil_r in *. by subst.
      + injection E2 as -> ->. left. by exists k.
    - right. by exists k. }
  - destruct (IHb _ _ _ E) as [(k & Hk & Hd & Hn)|(pre' & rp & mid & k & -> & Hc & Hmid)].
    + right. exists [], (TaskRow.mk child depth (numbering index)), pre1, k.
      split; [done|]. split; [by repeat split|].
      pose proof (EmitsAll_below_Under _ _ _ _ _ Hb) as Hunder.
      rewrite E in Hunder. by apply Forall_app in Hunder as [Hunder _].
    + right. exists (TaskRow.mk child depth (numbering index) :: pre'), rp, mid, k.
      split; [done|]. by split.
  - destruct (IHa _ _ _ E2) as [(k & Hk & Hd & Hn)|(pre' & rp & mid & k & -> & Hc & Hmid)].
    + left. exists (S k). split; [done|]. split; [done|].
      by replace (index + S k)%nat with (S index + k)%nat by lia.
    + right. exists (TaskRow.mk child depth (numbering index) :: below ++ pre'), rp, mid, k.
      subst pre1. split; [simpl; by rewrite <- app_assoc|]. done.
Qed.

(** The row of every element of the [forEach] is emitted. *)
Lemma EmitsAll_complete_top (numbering : nat → string) (l : list Task.t)
    (index depth : nat) (rows : list TaskRow.t) :
  EmitsAll kids numbering l index depth rows →
  ∀ k c, l !! k = Some c → TaskRow.mk c depth (numbering (index + k)%nat) ∈ rows.
Proof.
  induction 1 as [|numbering child rest index depth below after Hb IHb Ha IHa];
    intros k c Hk; [done|].
  destruct k as [|k]; simpl in Hk.
  - injection Hk as ->. rewrite Nat.add_0_r. by left.
  - right. apply elem_of_app. right.
    replace (index + S k)%nat with (S index + k)%nat by lia. by apply IHa.
Qed.

(** The row of every sorted child of an emitted row is emitted. *)
Lemma EmitsAll_complete_child (numbering : nat → string) (l : list Task.t)
    (index depth : nat) (rows : list TaskRow.t) :
  EmitsAll kids numbering l index depth rows →
  ∀ rp k c, rp ∈ rows → kids (Some (Task.id (TaskRow.task rp))) !! k = Some c →
    TaskRow.mk c (TaskRow.depth rp + 1) (childNumber (TaskRow.number rp) k) ∈ rows.
Proof.
  induction 1 as [|numbering child rest index depth below after Hb IHb Ha IHa];
    intros rp k c Hin Hk; [by apply elem_of_nil in Hin|].
  apply elem_of_cons in Hin as [->|Hin].
  - right. apply elem_of_app. left. simpl.
    by apply (EmitsAll_complete_top _ _ _ _ _ Hb k c).
  - apply elem_of_app in Hin as [Hin|Hin].
    + right. apply elem_of_app. left. by apply IHb.
    + right. apply elem_of_app. right. by apply IHa.
Qed.

End Emits.

(** ** What the rows say about the input *)

Lemma EmitsAll_reachable (tasks : list Task.t) (numbering : nat → string)
    (l : list Task.t) (index depth : nat) (rows : list TaskRow.t) :
  EmitsAll (childrenOf tasks) numbering l index depth rows →
  (∀ c, c ∈ l → Reachable tasks c) →
  ∀ r, r ∈ rows → Reachable tasks (TaskRow.task r).
Proof.
  induction 1 as [|numbering child rest index depth below after Hb IHb Ha IHa];
    intros Hl r Hin; [by apply elem_of_nil in Hin|].
  apply elem_of_cons in Hin as [->|Hin]; [apply Hl; by left|].
  apply elem_of_app in Hin as [Hin|Hin].
  - apply IHb; [|done]. intros c Hc.
    apply elem_of_childrenOf in Hc as [Hp Hc].
    destruct (Hl child) as [Hchild [path Hpath]]; [by left|].
    split; [done|]. exists (child :: path). by repeat split.
  - apply IHa; [|done]. intros c Hc. apply Hl. by right.
Qed.

Lemma buildTaskRows_reachable (fuel : nat) (tasks : list Task.t) (rows : list TaskRow.t) :
  buildTaskRows fuel tasks = Some rows →
  ∀ r, r ∈ rows → Reachable tasks (TaskRow.task r).
Proof.
  intros H. apply buildTaskRows_emits in H.
  apply (EmitsAll_reachable _ _ _ _ _ _ H).
  intros c Hc. apply elem_of_childrenOf in Hc as [Hp Hc].
  split; [done|]. by exists [].
Qed.

Lemma EmitsAll_positioned (tasks : list Task.t) (numbering : nat → string)
    (l : list Task.t) (index depth : nat) (rows : list TaskRow.t) :
  EmitsAll (childrenOf tasks) numbering l index depth rows →
  (∀ k c, l !! k = Some c →
     ∃ path, Positioned tasks path c ∧ numbering (index + k)%nat = numberOfPath path ∧
             length path = (depth + 1)%nat) →
  ∀ r, r ∈ rows →
    ∃ path, Positioned tasks path (TaskRow.task r) ∧
            TaskRow.number r = numberOfPath path ∧
            length path = (TaskRow.depth r + 1)%nat.
Proof.
  induction 1 as [|numbering child rest index depth below after Hb IHb Ha IHa];
    intros Hl r Hin; [by apply elem_of_nil in Hin|].
  destruct (Hl 0%nat child eq_refl) as (path0 & Hpos0 & Hnum0 & Hlen0).
  rewrite Nat.add_0_r in Hnum0.
  apply elem_of_cons in Hin as [->|Hin]; [by exists path0|].
  apply elem_of_app in Hin as [Hin|Hin].
  - apply IHb; [|done]. intros k c Hk.
    exists (path0 ++ [k]). split; [by econstructor|]. split.
    + rewrite numberOfPath_snoc by (intros ->; simpl in Hlen0; lia).
      by rewrite <- Hnum0.
    + rewrite length_app. simpl. lia.
  - apply IHa; [|done]. intros k c Hk.
    replace (S index + k)%nat with (index + S k)%nat by lia. by apply Hl.
Qed.

Lemma buildTaskRows_positioned (fuel : nat) (tasks : list Task.t) (rows : list TaskRow.t) :
  buildTaskRows fuel tasks = Some rows →
  ∀ r, r ∈ rows →
    ∃ path, Positioned tasks path (TaskRow.task r) ∧
            TaskRow.number r = numberOfPath path ∧
            length path = (TaskRow.depth r + 1)%nat.
Proof.
  intros H. apply buildTaskRows_emits in H.
  apply (EmitsAll_positioned _ _ _ _ _ _ H).
  intros k c Hk. exists [k]. split; [by constructor|]. done.
Qed.

Lemma Positioned_nonempty (tasks : list Task.t) (path : list nat) (t : Task.t) :
  Positioned tasks path t → path ≠ [].
Proof. destruct 1; [done|]. by destruct path. Qed.

(** Conversely, every position of the sorted forest has its row. *)
Lemma buildTaskRows_complete (fuel : nat) (tasks : list Task.t) (rows : list TaskRow.t) :
  buildTaskRows fuel tasks = Some rows →
  ∀ path t, Positioned tasks path t →
    TaskRow.mk t (length path - 1) (numberOfPath path) ∈ rows.
Proof.
  intros H. apply buildTaskRows_emits in H.
  induction 1 as [k t Hk|path p k c Hpos IH Hk].
  - apply (EmitsAll_complete_top _ _ _ _ _ _ H k t Hk).
  - pose proof (EmitsAll_complete_child _ _ _ _ _ _ H _ k c IH Hk) as Hin.
    simpl in Hin. rewrite numberOfPath_snoc by by eapply Positioned_nonempty.
    rewrite length_app. simpl.
    assert (path ≠ []) as Hne by by eapply Positioned_nonempty.
    destruct path as [|j ks]; [done|]. simpl in *.
    by replace (length ks + 1 - 0)%nat with (length ks - 0 + 1)%nat by lia.
Qed.

(** *** Root chains under unique identifiers *)

Section UniqueIds.
Variable tasks : list Task.t.
Hypothesis ids_unique : NoDup (Task.id <$> tasks).

Lemma rootChain_functional (t : Task.t) (p1 p2 : list Task.t) :
  rootChain tasks t p1 → rootChain tasks t p2 → p1 = p2.
Proof.
  revert t p2. induction p1 as [|a p1 IH]; intros t [|b p2]; simpl.
  - done.
  - intros H1 (H2 & _). congruence.
  - intros (H1 & _) H2. congruence.
  - intros (H1 & Ha & Hc1) (H2 & Hb & Hc2).
    assert (a = b) as ->.
    { apply (unique_id tasks); [done..|congruence]. }
    f_equal. by apply (IH b).
Qed.

Lemma rootChain_suffix (t : Task.t) (a : list Task.t) (p : Task.t) (b : list Task.t) :
  rootChain tasks t (a ++ p :: b) → rootChain tasks p b.
Proof.
  revert t. induction a as [|x a IH]; intros t; simpl.
  - by intros (_ & _ & H).
  - intros (_ & _ & H). by apply (IH x).
Qed.

Lemma rootChain_elem (t : Task.t) (path : list Task.t) (p : Task.t) :
  rootChain tasks t path → p ∈ path → p ∈ tasks.
Proof.
  revert t. induction path as [|x path IH]; intros t; simpl.
  - intros _ Hin. by apply elem_of_nil in Hin.
  - intros (_ & Hx & H) Hin. apply elem_of_cons in Hin as [->|Hin]; [done|].
    by apply (IH x).
Qed.

Lemma rootChain_not_in (t : Task.t) (path : list Task.t) :
  rootChain tasks t path → t ∉ path.
Proof.
  intros H Hin. apply list_elem_of_split in Hin as (a & b & ->).
  pose proof (rootChain_suffix _ _ _ _ H) as Hb.
  pose proof (rootChain_functional _ _ _ H Hb) as Heq.
  apply (f_equal length) in Heq. rewrite length_app in Heq. simpl in Heq. lia.
Qed.

Lemma rootChain_NoDup (t : Task.t) (path : list Task.t) :
  rootChain tasks t path → NoDup (t :: path).
Proof.
  revert t. induction path as [|x path IH]; intros t H.
  - apply NoDup_singleton.
  - apply NoDup_cons. split; [by apply rootChain_not_in|].
    simpl in H. destruct H as (_ & _ & H). by apply IH.
Qed.

Lemma rootChain_length (t : Task.t) (path : list Task.t) :
  t ∈ tasks → rootChain tasks t path → (length path + 1 ≤ length tasks)%nat.
Proof.
  intros Ht H.
  assert (t :: path ⊆+ tasks) as Hsub.
  { apply NoDup_submseteq; [by apply rootChain_NoDup|].
    intros x Hx. apply elem_of_cons in Hx as [->|Hx]; [done|].
    by eapply rootChain_elem. }
  apply submseteq_length in Hsub. simpl in Hsub. lia.
Qed.

Lemma parentChain_prefix (t : Task.t) (l path : list Task.t) :
  parentChain tasks t l → rootChain tasks t path → ∃ rest, path = l ++ rest.
Proof.
  revert t path. induction l as [|a l IH]; intros t path; simpl.
  - intros _ _. by exists path.
  - intros (H1 & Ha & Hl) Hpath. destruct path as [|b path]; simpl in Hpath.
    + congruence.
    + destruct Hpath as (H2 & Hb & Hpath).
      assert (a = b) as ->.
      { apply (unique_id tasks); [done..|congruence]. }
      destruct (IH b path Hl Hpath) as [rest ->]. by exists rest.
Qed.

Lemma OnCycle_not_Reachable (t : Task.t) :
  OnCycle tasks t → ¬ Reachable tasks t.
Proof.
  intros (l & Hl & Hlast) (_ & path & Hpath).
  destruct (parentChain_prefix _ _ _ Hl Hpath) as [rest ->].
  apply (rootChain_not_in _ _ Hpath). apply elem_of_app. left.
  apply last_Some in Hlast as [l' ->]. apply elem_of_app. right. by left.
Qed.

End UniqueIds.

(** ** Termination *)

Lemma forEachIndexed_is_Some {A S : Type} (body : A → nat → S → option S) (l : list A) :
  (∀ x i s, x ∈ l → is_Some (body x i s)) →
  ∀ i s, is_Some (forEachIndexed body l i s).
Proof.
  induction l as [|x l IH]; intros Hbody i s; simpl; [by eexists|].
  destruct (Hbody x i s) as [s' ->]; [by left|].
  apply IH. intros y j s0 Hy. apply Hbody. by right.
Qed.

Lemma forEachIndexed_mono {A S : Type} (body1 body2 : A → nat → S → option S) (l : list A) :
  (∀ x i s s', body1 x i s = Some s' → body2 x i s = Some s') →
  ∀ i s s', forEachIndexed body1 l i s = Some s' → forEachIndexed body2 l i s = Some s'.
Proof.
  intros Hbody. induction l as [|x l IH]; intros i s s' H; simpl in *; [done|].
  destruct (body1 x i s) as [s1|] eqn:E; [|done].
  rewrite (Hbody _ _ _ _ E). by apply IH.
Qed.

(** More fuel does not change a result. *)
Lemma visit_fuel_mono (byParent : gmap (option Z) (list Task.t)) (fuel fuel' : nat) :
  (fuel ≤ fuel')%nat →
  ∀ task depth number rows rows',
    visit fuel byParent task depth number rows = Some rows' →
    visit fuel' byParent task depth number rows = Some rows'.
Proof.
  revert fuel'. induction fuel as [|fuel IH]; intros fuel' Hle task depth number rows rows' H;
    [done|].
  destruct fuel' as [|fuel']; [lia|]. simpl in *.
  eapply forEachIndexed_mono; [|exact H].
  intros x i s s' Hx. eapply IH; [lia|exact Hx].
Qed.

Lemma buildTaskRows_fuel_mono (fuel fuel' : nat) (tasks : list Task.t)
    (rows : list TaskRow.t) :
  (fuel ≤ fuel')%nat →
  buildTaskRows fuel tasks = Some rows → buildTaskRows fuel' tasks = Some rows.
Proof.
  intros Hle H. unfold buildTaskRows in *.
  eapply forEachIndexed_mono; [|exact H].
  intros x i s s' Hx. by eapply visit_fuel_mono.
Qed.

Section UniqueIdsRun.
Variable tasks : list Task.t.
Hypothesis ids_unique : NoDup (Task.id <$> tasks).

Lemma visit_terminates (fuel : nat) :
  ∀ task path depth number rows,
    task ∈ tasks → rootChain tasks task path →
    (length tasks ≤ fuel + length path)%nat →
    is_Some (visit fuel (groupByParent tasks) task depth number rows).
Proof.
  induction fuel as [|fuel IH]; intros task path depth number rows Hin Hpath Hlen.
  - pose proof (rootChain_length tasks ids_unique task path Hin Hpath). simpl in Hlen. lia.
  - simpl. apply forEachIndexed_is_Some. intros child i s Hchild.
    rewrite sortedBucket_childrenOf in Hchild.
    apply elem_of_childrenOf in Hchild as [Hp Hc].
    apply (IH child (task :: path)); [done|by repeat split|simpl; lia].
Qed.

Lemma buildTaskRows_terminates (fuel : nat) :
  (length tasks ≤ fuel)%nat → is_Some (buildTaskRows fuel tasks).
Proof.
  intros Hle. unfold buildTaskRows. apply forEachIndexed_is_Some.
  intros root i s Hroot. rewrite sortedBucket_childrenOf in Hroot.
  apply elem_of_childrenOf in Hroot as [Hp Hr].
  apply (visit_terminates fuel root []); [done|done|simpl; lia].
Qed.

(** *** One row per task *)

Variable rows : list TaskRow.t.
Hypothesis rows_emitted :
  EmitsAll (childrenOf tasks) rootNumber (childrenOf tasks None) 0 0 rows.

Lemma row_task_in (r : TaskRow.t) : r ∈ rows → TaskRow.task r ∈ tasks.
Proof.
  intros Hin.
  apply (EmitsAll_reachable _ _ _ _ _ _ rows_emitted); [|done].
  intros c Hc. apply elem_of_childrenOf in Hc as [Hp Hc]. split; [done|]. by exists [].
Qed.

Lemma row_linked (r : TaskRow.t) :
  r ∈ rows →
  (∃ k, childrenOf tasks None !! k = Some (TaskRow.task r) ∧ TaskRow.depth r = 0%nat ∧
        TaskRow.number r = rootNumber k) ∨
  (∃ rp k, rp ∈ rows ∧ ChildRow (childrenOf tasks) rp r k).
Proof.
  intros Hin. apply list_elem_of_split in Hin as (pre & post & E).
  destruct (EmitsAll_linked _ _ _ _ _ _ rows_emitted _ _ _ E)
    as [(k & Hk & Hd & Hn)|(pre' & rp & mid & k & -> & Hc & _)].
  - left. by exists k.
  - right. exists rp, k. split; [|done]. rewrite E.
    rewrite <- app_assoc. apply elem_of_app. right. by left.
Qed.

Lemma row_eta (r1 r2 : TaskRow.t) :
  TaskRow.task r1 = TaskRow.task r2 → TaskRow.depth r1 = TaskRow.depth r2 →
  TaskRow.number r1 = TaskRow.number r2 → r1 = r2.
Proof. destruct r1, r2; simpl; congruence. Qed.

Lemma row_task_determines (n : nat) :
  ∀ r1 r2, (TaskRow.depth r1 < n)%nat → r1 ∈ rows → r2 ∈ rows →
    TaskRow.task r1 = TaskRow.task r2 → r1 = r2.
Proof.
  pose proof (NoDup_ids_tasks _ ids_unique) as Hnd.
  induction n as [|n IH]; intros r1 r2 Hd H1 H2 Heq; [lia|].
  destruct (row_linked r1 H1) as [(k1 & Hk1 & Hd1 & Hn1)|(rp1 & k1 & Hp1 & Hk1 & Hd1 & Hn1)];
  destruct (row_linked r2 H2) as [(k2 & Hk2 & Hd2 & Hn2)|(rp2 & k2 & Hp2 & Hk2 & Hd2 & Hn2)].
  - assert (k1 = k2) as ->.
    { eapply NoDup_lookup; [|exact Hk1|by rewrite Heq]. by apply NoDup_childrenOf. }
    apply row_eta; congruence.
  - apply childrenOf_lookup in Hk1 as [Hk1 _]. apply childrenOf_lookup in Hk2 as [Hk2 _].
    congruence.
  - apply childrenOf_lookup in Hk1 as [Hk1 _]. apply childrenOf_lookup in Hk2 as [Hk2 _].
    congruence.
  - pose proof (childrenOf_lookup _ _ _ _ Hk1) as [Hq1 _].
    pose proof (childrenOf_lookup _ _ _ _ Hk2) as [Hq2 _].
    assert (TaskRow.task rp1 = TaskRow.task rp2) as Hrp.
    { apply (unique_id tasks); [done|by apply row_task_in..|congruence]. }
    assert (rp1 = rp2) as -> by (apply IH; [lia|done..]).
    assert (k1 = k2) as ->.
    { eapply NoDup_lookup; [|exact Hk1|by rewrite Heq]. by apply NoDup_childrenOf. }
    apply row_eta; congruence.
Qed.

Lemma row_of_task_unique (r1 r2 : TaskRow.t) :
  r1 ∈ rows → r2 ∈ rows → TaskRow.task r1 = TaskRow.task r2 → r1 = r2.
Proof. apply (row_task_determines (S (TaskRow.depth r1))). lia. Qed.

Lemma row_of_id_unique (r1 r2 : TaskRow.t) :
  r1 ∈ rows → r2 ∈ rows →
  Task.id (TaskRow.task r1) = Task.id (TaskRow.task r2) → r1 = r2.
Proof.
  intros H1 H2 Heq. apply row_of_task_unique; [done..|].
  apply (unique_id tasks); [done|by apply row_task_in..|done].
Qed.

Lemma rows_NoDup : NoDup rows.
Proof.
  eapply NoDup_fmap_1, EmitsAll_NoDup_number; [exact rows_emitted|].
  apply Separated_rootNumber.
Qed.

Lemma rows_NoDup_id : NoDup ((λ r, Task.id (TaskRow.task r)) <$> rows).
Proof.
  apply NoDup_fmap_2_strong; [|apply rows_NoDup].
  intros r1 r2 H1 H2 Heq. by apply row_of_id_unique.
Qed.

(** A row whose task has a parent reference comes after a row of a task
    with that identifier, one level up, and only rows of that row's own
    branch lie between the two. *)
Lemma row_parent_exists (j : nat) (rc : TaskRow.t) (p : Z) :
  rows !! j = Some rc →
  Task.parentTaskId (TaskRow.task rc) = Some p →
  ∃ i rp, rows !! i = Some rp ∧ Task.id (TaskRow.task rp) = p ∧
    TaskRow.depth rc = (TaskRow.depth rp + 1)%nat ∧ (i < j)%nat ∧
    (∃ k, ChildRow (childrenOf tasks) rp rc k) ∧
    ∀ m rm, (i < m < j)%nat → rows !! m = Some rm → Under rp rm.
Proof.
  intros Hj Hparent.
  destruct (list_elem_of_split_length rows j rc Hj) as (pre & post & E & Hlen).
  destruct (EmitsAll_linked _ _ _ _ _ _ rows_emitted _ _ _ E)
    as [(k & Hk & _)|(pre' & rp & mid & k & Epre & Hc & Hmid)].
  { apply childrenOf_lookup in Hk as [Hk _]. congruence. }
  rewrite Epre, <- app_assoc in E. simpl in E.
  rewrite Epre, length_app in Hlen. simpl in Hlen.
  exists (length pre'), rp.
  split; [rewrite E; by rewrite list_lookup_middle|].
  split.
  { destruct Hc as (Hk & _). apply childrenOf_lookup in Hk as [Hk _]. congruence. }
  split; [by destruct Hc as (_ & ? & _)|]. split; [lia|]. split; [by exists k|].
  intros m rm Hm Hrm. rewrite Forall_forall in Hmid. apply Hmid.
  rewrite E in Hrm.
  rewrite lookup_app_r in Hrm by lia.
  replace (m - length pre')%nat with (S (m - length pre' - 1)) in Hrm by lia.
  simpl in Hrm. rewrite lookup_app_l in Hrm by lia.
  by eapply list_elem_of_lookup_2.
Qed.

(** With unique identifiers that earlier row is the row of the parent. *)
Lemma row_parent_before (i j : nat) (rp rc : TaskRow.t) :
  rows !! i = Some rp → rows !! j = Some rc →
  Task.parentTaskId (TaskRow.task rc) = Some (Task.id (TaskRow.task rp)) →
  TaskRow.depth rc = (TaskRow.depth rp + 1)%nat ∧ (i < j)%nat ∧
  (∃ k, ChildRow (childrenOf tasks) rp rc k) ∧
  ∀ m rm, (i < m < j)%nat → rows !! m = Some rm → Under rp rm.
Proof.
  intros Hi Hj Hparent.
  destruct (row_parent_exists j rc _ Hj Hparent) as (i' & rp' & Hi' & Hid & Hrest).
  assert (rp' = rp) as ->.
  { apply row_of_id_unique; [by eapply list_elem_of_lookup_2..|done]. }
  assert (i = i') as ->; [|done].
  eapply NoDup_lookup; [apply rows_NoDup|exact Hi|exact Hi'].
Qed.

End UniqueIdsRun.

(** ** The outline *)

(** C5.  A task whose parent reference is non-null and is the identifier
    of no task reachable from a root has no row at all: no row of the
    output, at depth 0 or elsewhere, carries it. *)
Theorem buildTaskRows_dangling_parent_excluded (fuel : nat) (tasks : list Task.t)
    (rows : list TaskRow.t) (t : Task.t) (p : Z) :
  buildTaskRows fuel tasks = Some rows →
  Task.parentTaskId t = Some p →
  (∀ q, Reachable tasks q → Task.id q ≠ p) →
  ∀ row, row ∈ rows → TaskRow.task row ≠ t.
Proof.
  intros Hrows Hp Hnone row Hin Heq. subst t.
  destruct (buildTaskRows_reachable _ _ _ Hrows row Hin) as [_ [path Hpath]].
  destruct path as [|q path]; simpl in Hpath; [congruence|].
  destruct Hpath as (Hq & Hqin & Hpath).
  apply (Hnone q); [split; eauto|congruence].
Qed.

(** C6.  With unique task identifiers, [buildTaskRows] returns as soon as
    the fuel covers the number of tasks, and more fuel does not change
    the rows; each identifier has at most one row, so no task is visited
    twice; every row's task is reachable from a root; and a task on a
    cycle of parent references (a task that is its own parent included)
    has a non-null parent, is not reachable from a root, and has no row. *)
Theorem outline_terminates_without_revisit (tasks : list Task.t) :
  NoDup (Task.id <$> tasks) →
  ∃ rows,
    (∀ fuel, (length tasks ≤ fuel)%nat → buildTaskRows fuel tasks = Some rows) ∧
    NoDup ((λ r, Task.id (TaskRow.task r)) <$> rows) ∧
    (length rows ≤ length tasks)%nat ∧
    (∀ row, row ∈ rows → Reachable tasks (TaskRow.task row)) ∧
    (∀ t, OnCycle tasks t →
       Task.parentTaskId t ≠ None ∧ ¬ Reachable tasks t ∧
       ∀ row, row ∈ rows → TaskRow.task row ≠ t).
Proof.
  intros Hids.
  destruct (buildTaskRows_terminates tasks Hids (length tasks)) as [rows Hrows]; [done|].
  pose proof (buildTaskRows_emits _ _ _ Hrows) as Hemits.
  pose proof (rows_NoDup_id tasks Hids rows Hemits) as Hnd.
  exists rows. split; [|split; [done|split; [|split]]].
  - intros fuel Hle. by apply (buildTaskRows_fuel_mono (length tasks)).
  - rewrite <- (length_fmap (λ r, Task.id (TaskRow.task r)) rows),
            <- (length_fmap Task.id tasks).
    apply submseteq_length, NoDup_submseteq; [done|].
    intros x Hx. apply list_elem_of_fmap in Hx as (r & -> & Hr).
    apply list_elem_of_fmap_2. by apply (row_task_in tasks rows Hemits).
  - by apply (buildTaskRows_reachable (length tasks)).
  - intros t Hcyc.
    pose proof (OnCycle_not_Reachable tasks Hids t Hcyc) as Hnr.
    split; [|split; [done|]].
    + destruct Hcyc as (path & Hchain & Hlast).
      destruct path as [|q path]; [done|]. simpl in Hchain.
      destruct Hchain as (Hq & _). congruence.
    + intros row Hin Heq. subst t. apply Hnr. by apply (buildTaskRows_reachable _ _ _ Hrows).
Qed.

(** C7.  Every row of a task with no parent reference has depth 0, and
    every such task of the input has a row.  A row whose task has a
    parent reference comes strictly after a row of a task with that
    identifier; its depth is that row's depth plus one, its task is one
    of that row's sorted children, and every row between the two lies in
    that row's own branch (deeper than it and numbered under it): no row
    of another branch separates them.  With unique identifiers this holds
    of every pair of rows in which the parent reference of one task is
    the identifier of the other. *)
Theorem buildTaskRows_preorder (fuel : nat) (tasks : list Task.t) (rows : list TaskRow.t) :
  buildTaskRows fuel tasks = Some rows →
  (∀ row, row ∈ rows → Task.parentTaskId (TaskRow.task row) = None →
          TaskRow.depth row = 0%nat) ∧
  (∀ t, t ∈ tasks → Task.parentTaskId t = None →
        ∃ row, row ∈ rows ∧ TaskRow.task row = t ∧ TaskRow.depth row = 0%nat) ∧
  (∀ j rc p,
     rows !! j = Some rc → Task.parentTaskId (TaskRow.task rc) = Some p →
     ∃ i rp, rows !! i = Some rp ∧ Task.id (TaskRow.task rp) = p ∧
       TaskRow.depth rc = (TaskRow.depth rp + 1)%nat ∧ (i < j)%nat ∧
       (∃ k, ChildRow (childrenOf tasks) rp rc k) ∧
       ∀ m rm, (i < m < j)%nat → rows !! m = Some rm → Under rp rm) ∧
  (NoDup (Task.id <$> tasks) →
   ∀ i j rp rc,
     rows !! i = Some rp → rows !! j = Some rc →
     Task.parentTaskId (TaskRow.task rc) = Some (Task.id (TaskRow.task rp)) →
     TaskRow.depth rc = (TaskRow.depth rp + 1)%nat ∧ (i < j)%nat ∧
     (∃ k, ChildRow (childrenOf tasks) rp rc k) ∧
     ∀ m rm, (i < m < j)%nat → rows !! m = Some rm → Under rp rm).
Proof.
  intros Hrows. pose proof (buildTaskRows_emits _ _ _ Hrows) as Hemits.
  split; [|split; [|split]].
  - intros row Hin Hnone.
    destruct (row_linked tasks rows Hemits row Hin)
      as [(k & _ & Hd & _)|(rp & k & _ & Hk & _)]; [done|].
    apply childrenOf_lookup in Hk as [Hk _]. congruence.
  - intros t Hin Hnone.
    assert (t ∈ childrenOf tasks None) as Ht by by apply elem_of_childrenOf.
    apply list_elem_of_lookup in Ht as (k & Hk).
    exists (TaskRow.mk t 0 (rootNumber (0 + k))). split; [|done].
    apply (EmitsAll_complete_top _ _ _ _ _ _ Hemits k t Hk).
  - intros j rc p. by apply row_parent_exists.
  - intros Hids i j rp rc. by apply row_parent_before.
Qed.

(** C8.  The hierarchical numbers of the rows are pairwise distinct, and
    the rows are exactly the positions of the sorted forest: a row's task
    is found by walking sibling positions down from the sorted roots, its
    number is the 1-based positions of that walk joined with dots, ending
    in its own position among its siblings, and its depth is the number
    of steps below the root.  The second root is numbered 2 and its third
    child 2.3. *)
Theorem buildTaskRows_numbers (fuel : nat) (tasks : list Task.t) (rows : list TaskRow.t) :
  buildTaskRows fuel tasks = Some rows →
  NoDup (TaskRow.number <$> rows) ∧
  (∀ row, row ∈ rows ↔
     ∃ path, Positioned tasks path (TaskRow.task row) ∧
             TaskRow.number row = numberOfPath path ∧
             length path = (TaskRow.depth row + 1)%nat) ∧
  numberOfPath [1%nat] = "2" ∧ numberOfPath [1%nat; 2%nat] = "2.3".
Proof.
  intros Hrows. pose proof (buildTaskRows_emits _ _ _ Hrows) as Hemits.
  split; [|split; [|done]].
  - eapply EmitsAll_NoDup_number; [exact Hemits|apply Separated_rootNumber].
  - intros row. split; [by apply (buildTaskRows_positioned fuel)|].
    intros (path & Hpos & Hnum & Hlen).
    pose proof (buildTaskRows_complete _ _ _ Hrows path _ Hpos) as Hin.
    replace row with (TaskRow.mk (TaskRow.task row) (length path - 1) (numberOfPath path));
      [done|].
    destruct row as [t d n]. simpl in *. f_equal; [lia|done].
Qed.

(** ** Dependency lines *)

Lemma taskIndexById_snoc (l : list TaskRow.t) (x : TaskRow.t) :
  taskIndexById (l ++ [x]) = <[Task.id (TaskRow.task x) := length l]> (taskIndexById l).
Proof.
  unfold taskIndexById. rewrite imap_app, foldl_app. simpl.
  by rewrite Nat.add_0_r.
Qed.

Lemma taskIndexById_lookup (taskRows : list TaskRow.t) (id : Z) (i : nat) :
  taskIndexById taskRows !! id = Some i ↔ lastIndexOf taskRows id i.
Proof.
  revert i. induction taskRows as [|x l IH] using rev_ind; intros i.
  { unfold taskIndexById. simpl. rewrite lookup_empty. split; [done|].
    by intros [(row & Hrow & _) _]. }
  rewrite taskIndexById_snoc.
  destruct (decide (Task.id (TaskRow.task x) = id)) as [Hid|Hid].
  - rewrite Hid, lookup_insert_eq. split.
    + intros [= <-]. split.
      * exists x. by rewrite list_lookup_middle.
      * intros j row Hj _. apply lookup_lt_Some in Hj.
        rewrite length_app in Hj. simpl in Hj. lia.
    + intros [(row & Hrow & _) Hmax]. f_equal.
      apply lookup_lt_Some in Hrow. rewrite length_app in Hrow. simpl in Hrow.
      assert (length l ≤ i)%nat; [|lia].
      apply (Hmax _ x); [by rewrite list_lookup_middle|done].
  - rewrite lookup_insert_ne by done. rewrite IH. split.
    + intros [(row & Hrow & Hr) Hmax]. split.
      * exists row. split; [|done]. by apply lookup_app_l_Some.
      * intros j row' Hj Hr'.
        destruct (decide (j < length l)%nat) as [Hlt|Hge].
        -- rewrite lookup_app_l in Hj by done. by apply (Hmax j row').
        -- rewrite lookup_app_r in Hj by lia.
           destruct (j - length l)%nat; simpl in Hj; [congruence|done].
    + intros [(row & Hrow & Hr) Hmax].
      assert (i < length l)%nat as Hlt.
      { destruct (decide (i < length l)%nat) as [|Hge]; [done|].
        rewrite lookup_app_r in Hrow by lia.
        destruct (i - length l)%nat; simpl in Hrow; [congruence|done]. }
      rewrite lookup_app_l in Hrow by done. split; [by exists row|].
      intros j row' Hj Hr'. apply (Hmax j row'); [|done].
      by apply lookup_app_l_Some.
Qed.

Lemma dependencyStep_lineFor (r : TimelineRange.t) (timelineWidth : Qc)
    (index : gmap Z nat) (taskRows : list TaskRow.t)
    (row : TaskRow.t) (rowIndex : nat) (taskRange : TaskRange.t)
    (lines : list Line.t) (dependencyId : Z) :
  dependencyStep r timelineWidth index taskRows row rowIndex taskRange lines dependencyId
  = lines ++ option_list
      (lineFor r timelineWidth index taskRows row rowIndex taskRange dependencyId).
Proof.
  unfold dependencyStep, lineFor.
  destruct (index !! dependencyId) as [di|]; simpl; [|by rewrite app_nil_r].
  destruct (taskRows !! di) as [drow|]; simpl; [|by rewrite app_nil_r].
  destruct (getTaskRange (TaskRow.task drow)); simpl; [done|by rewrite app_nil_r].
Qed.

Lemma foldl_dependencyStep (r : TimelineRange.t) (timelineWidth : Qc)
    (index : gmap Z nat) (taskRows : list TaskRow.t)
    (row : TaskRow.t) (rowIndex : nat) (taskRange : TaskRange.t)
    (deps : list Z) (lines : list Line.t) :
  foldl (dependencyStep r timelineWidth index taskRows row rowIndex taskRange) lines deps
  = lines ++ omap (lineFor r timelineWidth index taskRows row rowIndex taskRange) deps.
Proof.
  revert lines. induction deps as [|d deps IH]; intros lines; simpl.
  - by rewrite app_nil_r.
  - rewrite IH, dependencyStep_lineFor.
    destruct (lineFor r timelineWidth index taskRows row rowIndex taskRange d); simpl.
    + by rewrite <- app_assoc.
    + by rewrite app_nil_r.
Qed.

Lemma foldl_dependencyRowStep (r : TimelineRange.t) (timelineWidth : Qc)
    (index : gmap Z nat) (taskRows : list TaskRow.t)
    (l : list (nat * TaskRow.t)) (lines : list Line.t) :
  foldl (dependencyRowStep r timelineWidth index taskRows) lines l
  = lines ++ (l ≫= linesOfRow r timelineWidth index taskRows).
Proof.
  revert lines. induction l as [|[rowIndex row] l IH]; intros lines; simpl.
  - by rewrite app_nil_r.
  - rewrite IH. unfold linesOfRow at 2. simpl.
    destruct (getTaskRange (TaskRow.task row)); simpl.
    + by rewrite foldl_dependencyStep, <- app_assoc.
    + done.
Qed.

Lemma dependencyLines_unfold (r : TimelineRange.t) (timelineWidth : Qc)
    (index : gmap Z nat) (taskRows : list TaskRow.t) :
  timelineWidth ≠ Qc_of_Z 0 →
  dependencyLines index taskRows (Some r) timelineWidth
  = imap (λ i row, (i, row)) taskRows ≫= linesOfRow r timelineWidth index taskRows.
Proof.
  intros Hw. unfold dependencyLines. rewrite decide_False by done.
  by rewrite foldl_dependencyRowStep.
Qed.

(** Membership in the result, read off the two nested loops. *)
Lemma elem_of_dependencyLines (r : TimelineRange.t) (timelineWidth : Qc)
    (taskRows : list TaskRow.t) (line : Line.t) :
  timelineWidth ≠ Qc_of_Z 0 →
  line ∈ dependencyLines (taskIndexById taskRows) taskRows (Some r) timelineWidth ↔
  ∃ rowIndex row taskRange dependencyIndex dependencyRow dependencyRange,
    taskRows !! rowIndex = Some row ∧
    getTaskRange (TaskRow.task row) = Some taskRange ∧
    Task.id (TaskRow.task dependencyRow) ∈ Task.dependsOn (TaskRow.task row) ∧
    lastIndexOf taskRows (Task.id (TaskRow.task dependencyRow)) dependencyIndex ∧
    taskRows !! dependencyIndex = Some dependencyRow ∧
    getTaskRange (TaskRow.task dependencyRow) = Some dependencyRange ∧
    line = lineBetween r timelineWidth dependencyIndex dependencyRow dependencyRange
             rowIndex row taskRange.
Proof.
  intros Hw. rewrite dependencyLines_unfold by done.
  rewrite list_elem_of_bind. split.
  - intros ([rowIndex row] & Hline & Hin).
    apply elem_of_lookup_imap_1 in Hin as (i & row' & [= -> ->] & Hrow).
    unfold linesOfRow in Hline. simpl in Hline.
    destruct (getTaskRange (TaskRow.task row')) as [taskRange|] eqn:Erange;
      [|by apply elem_of_nil in Hline].
    apply list_elem_of_omap in Hline as (dependencyId & Hdep & Hline).
    unfold lineFor in Hline.
    destruct (taskIndexById taskRows !! dependencyId) as [di|] eqn:Eindex; [|done].
    simpl in Hline.
    destruct (taskRows !! di) as [drow|] eqn:Edrow; [|done]. simpl in Hline.
    destruct (getTaskRange (TaskRow.task drow)) as [drange|] eqn:Edrange; [|done].
    simpl in Hline. injection Hline as <-.
    apply taskIndexById_lookup in Eindex.
    assert (Task.id (TaskRow.task drow) = dependencyId) as Hid.
    { destruct Eindex as [(row0 & Hrow0 & Hid) _]. congruence. }
    exists i, row', taskRange, di, drow, drange. subst dependencyId.
    by split_and!.
  - intros (rowIndex & row & taskRange & di & drow & drange
            & Hrow & Erange & Hdep & Hlast & Hdrow & Edrange & ->).
    exists (rowIndex, row). split; [|by apply (elem_of_lookup_imap_2 (λ i row, (i, row)))].
    unfold linesOfRow. simpl. rewrite Erange.
    apply list_elem_of_omap. exists (Task.id (TaskRow.task drow)). split; [done|].
    unfold lineFor. apply taskIndexById_lookup in Hlast. rewrite Hlast. simpl.
    rewrite Hdrow. simpl. by rewrite Edrange.
Qed.

Lemma lastIndexOf_unique_id (taskRows : list TaskRow.t) (i : nat) (row : TaskRow.t) :
  NoDup ((λ r, Task.id (TaskRow.task r)) <$> taskRows) →
  taskRows !! i = Some row →
  lastIndexOf taskRows (Task.id (TaskRow.task row)) i.
Proof.
  intros Hnd Hrow. split; [by exists row|].
  intros j row' Hj Hid.
  assert (j = i) as ->; [|done].
  eapply NoDup_lookup; [exact Hnd| |].
  - rewrite list_lookup_fmap, Hj. simpl. by rewrite Hid.
  - by rewrite list_lookup_fmap, Hrow.
Qed.

Lemma dependencyLines_cases (index : gmap Z nat) (taskRows : list TaskRow.t)
    (tr : option TimelineRange.t) (timelineWidth : Qc) (line : Line.t) :
  line ∈ dependencyLines index taskRows tr timelineWidth →
  ∃ r, tr = Some r ∧ timelineWidth ≠ Qc_of_Z 0.
Proof.
  unfold dependencyLines. destruct tr as [r|]; [|by intros ?%elem_of_nil].
  case_decide; [by intros ?%elem_of_nil|]. by exists r.
Qed.

(** C2 (as amended).  For the rows of a task collection with unique
    identifiers: when the surface width is zero, or the range is absent,
    no line is emitted; otherwise the lines are exactly the lines between
    a row with an interval and the row, with an interval too, of a task
    that the first one depends on.  So a line is emitted exactly when the
    width is non-zero and both tasks have a row and an interval; a
    dependency whose task has no row, or one end of which has no
    interval, gives no line.  Rows with intervals imply that the range is
    present. *)
Theorem dependencyLines_emitted (fuel : nat) (tasks : list Task.t)
    (taskRows : list TaskRow.t) (timelineWidth : Qc) :
  NoDup (Task.id <$> tasks) →
  buildTaskRows fuel tasks = Some taskRows →
  (timelineWidth = Qc_of_Z 0 →
     dependencyLines (taskIndexById taskRows) taskRows (timelineRange tasks) timelineWidth
       = []) ∧
  (timelineRange tasks = None →
     dependencyLines (taskIndexById taskRows) taskRows (timelineRange tasks) timelineWidth
       = []) ∧
  (∀ row, row ∈ taskRows → is_Some (getTaskRange (TaskRow.task row)) →
          is_Some (timelineRange tasks)) ∧
  ∀ line,
    line ∈ dependencyLines (taskIndexById taskRows) taskRows (timelineRange tasks)
             timelineWidth ↔
    timelineWidth ≠ Qc_of_Z 0 ∧
    ∃ r rowIndex row taskRange dependencyIndex dependencyRow dependencyRange,
      timelineRange tasks = Some r ∧
      taskRows !! rowIndex = Some row ∧
      taskRows !! dependencyIndex = Some dependencyRow ∧
      Task.id (TaskRow.task dependencyRow) ∈ Task.dependsOn (TaskRow.task row) ∧
      getTaskRange (TaskRow.task row) = Some taskRange ∧
      getTaskRange (TaskRow.task dependencyRow) = Some dependencyRange ∧
      line = lineBetween r timelineWidth dependencyIndex dependencyRow dependencyRange
               rowIndex row taskRange.
Proof.
  intros Hids Hrows.
  pose proof (buildTaskRows_emits _ _ _ Hrows) as Hemits.
  pose proof (rows_NoDup_id tasks Hids taskRows Hemits) as Hnd.
  split; [|split; [|split]].
  - intros ->. unfold dependencyLines.
    destruct (timelineRange tasks); [|done]. by rewrite decide_True.
  - by intros ->.
  - intros row Hin [x Hx].
    destruct (timelineRange tasks) as [r|] eqn:E; [by eexists|].
    exfalso. pose proof (proj1 (timelineRange_None tasks) E) as Hnone.
    assert (is_Some (parseDate (Task.startDate (TaskRow.task row)))) as [s Hs].
    { apply getTaskRange_is_Some. by eexists. }
    rewrite Hnone in Hs; [done|]. by apply (row_task_in tasks taskRows Hemits).
  - intros line. split.
    + intros Hline.
      destruct (dependencyLines_cases _ _ _ _ _ Hline) as (r & Hr & Hw).
      split; [done|]. rewrite Hr in Hline.
      apply elem_of_dependencyLines in Hline
        as (rowIndex & row & taskRange & di & drow & drange
            & Hrow & Erange & Hdep & Hlast & Hdrow & Edrange & ->); [|done].
      exists r, rowIndex, row, taskRange, di, drow, drange. by split_and!.
    + intros (Hw & r & rowIndex & row & taskRange & di & drow & drange
              & Hr & Hrow & Hdrow & Hdep & Erange & Edrange & ->).
      rewrite Hr. apply elem_of_dependencyLines; [done|].
      exists rowIndex, row, taskRange, di, drow, drange.
      split_and!; try done.
      by apply (lastIndexOf_unique_id taskRows di drow Hnd Hdrow).
Qed.

(** * Further properties of the outline *)

Lemma groupByParent_nonempty (tasks : list Task.t) (key : option Z) (group : list Task.t) :
  groupByParent tasks !! key = Some group → group ≠ [].
Proof.
  unfold groupByParent. revert key group.
  induction tasks as [|x l IH] using rev_ind; intros key group; [done|].
  rewrite foldl_app. simpl. unfold byParent_add at 1.
  destruct (foldl byParent_add ∅ l !! Task.parentTaskId x) as [g|] eqn:E.
  - destruct (decide (Task.parentTaskId x = key)) as [Heq|Hne]; [subst key|].
    + rewrite lookup_insert_eq. intros [= <-]. by destruct g.
    + rewrite lookup_insert_ne by done. apply IH.
  - destruct (decide (Task.parentTaskId x = key)) as [Heq|Hne]; [subst key|].
    + rewrite lookup_insert_eq. by intros [= <-].
    + rewrite lookup_insert_ne by done. apply IH.
Qed.

(** X1.  The bucket that [byParent] holds for a key is the list of the
    tasks with that parent reference, in input order; a key has no
    bucket exactly when no task has it as parent reference, and a bucket
    is never empty. *)
Theorem groupByParent_buckets (tasks : list Task.t) (key : option Z) :
  (groupByParent tasks !! key = None ↔
     ∀ t, t ∈ tasks → Task.parentTaskId t ≠ key) ∧
  (∀ group, groupByParent tasks !! key = Some group →
     group = filter (λ t, Task.parentTaskId t = key) tasks ∧ group ≠ []).
Proof.
  pose proof (groupByParent_lookup tasks key) as Hlook. split.
  - split.
    + intros Hnone t Hin Hkey. rewrite Hnone in Hlook. simpl in Hlook.
      assert (t ∈ filter (λ t, Task.parentTaskId t = key) tasks) as Ht
        by by apply list_elem_of_filter.
      rewrite <- Hlook in Ht. by apply elem_of_nil in Ht.
    + intros Hall.
      destruct (groupByParent tasks !! key) as [group|] eqn:E; [|done].
      exfalso. apply (groupByParent_nonempty _ _ _ E). simpl in Hlook. subst group.
      destruct (filter _ tasks) as [|t l] eqn:Ef; [done|].
      assert (t ∈ filter (λ t, Task.parentTaskId t = key) tasks) as Ht
        by (rewrite Ef; by left).
      apply list_elem_of_filter in Ht as [Hkey Hin]. by destruct (Hall t Hin).
  - intros group E. split; [|by eapply groupByParent_nonempty].
    by rewrite E in Hlook.
Qed.

(** X2.  Sorting a bucket loses and duplicates nothing: the sorted bucket
    of a key is a rearrangement of the tasks with that parent reference,
    of the same length, and it is empty when the key has no bucket. *)
Theorem sortedBucket_rearranges (tasks : list Task.t) (key : option Z) :
  sortedBucket (groupByParent tasks) key
    ≡ₚ filter (λ t, Task.parentTaskId t = key) tasks ∧
  length (sortedBucket (groupByParent tasks) key)
    = length (filter (λ t, Task.parentTaskId t = key) tasks) ∧
  (groupByParent tasks !! key = None → sortedBucket (groupByParent tasks) key = []).
Proof.
  assert (sortedBucket (groupByParent tasks) key
            ≡ₚ filter (λ t, Task.parentTaskId t = key) tasks) as Hperm.
  { unfold sortedBucket. by rewrite js_sort_Permutation, groupByParent_lookup. }
  split; [done|]. split; [by rewrite Hperm|].
  intros Hnone. unfold sortedBucket. by rewrite Hnone.
Qed.

(** *** Order of siblings *)

Lemma startKey_cases (a : Task.t) : (∃ t, startKey a = Fin t) ∨ startKey a = PosInf.
Proof. unfold startKey. destruct (parseDate (Task.startDate a)); eauto. Qed.

Lemma key_le_refl (a : Task.t) : key_le (startKey a) (startKey a).
Proof. destruct (startKey_cases a) as [[t ->]| ->]; simpl; [lia|done]. Qed.

Lemma key_le_trans (a b c : Task.t) :
  key_le (startKey a) (startKey b) → key_le (startKey b) (startKey c) →
  key_le (startKey a) (startKey c).
Proof.
  destruct (startKey_cases a) as [[x ->]| ->], (startKey_cases b) as [[y ->]| ->],
    (startKey_cases c) as [[z ->]| ->]; simpl; try done. lia.
Qed.

Lemma compareTasks_pos_key (x y : Task.t) :
  num_pos (compareTasks x y) = true → key_le (startKey y) (startKey x).
Proof.
  unfold compareTasks.
  destruct (startKey_cases x) as [[a Hx]|Hx], (startKey_cases y) as [[b Hy]|Hy];
    rewrite Hx, Hy; simpl; try done.
  destruct (Z.eqb_spec a b) as [->|Hne]; simpl; [lia|].
  intros H%Z.ltb_lt. lia.
Qed.

Lemma compareTasks_not_pos_key (x y : Task.t) :
  num_pos (compareTasks x y) = false → key_le (startKey x) (startKey y).
Proof.
  unfold compareTasks.
  destruct (startKey_cases x) as [[a Hx]|Hx], (startKey_cases y) as [[b Hy]|Hy];
    rewrite Hx, Hy; simpl; try done.
  destruct (Z.eqb_spec a b) as [->|Hne]; simpl; [lia|].
  intros H%Z.ltb_ge. lia.
Qed.

Lemma sort_insert_by_start (x : Task.t) (l : list Task.t) :
  StronglySorted (λ a b, key_le (startKey a) (startKey b)) l →
  StronglySorted (λ a b, key_le (startKey a) (startKey b)) (sort_insert compareTasks x l).
Proof.
  induction 1 as [|y l Hl IH Hy]; simpl; [by repeat constructor|].
  destruct (num_pos (compareTasks x y)) eqn:E.
  - constructor; [done|].
    apply Forall_forall. intros z Hz.
    rewrite sort_insert_Permutation in Hz.
    apply elem_of_cons in Hz as [->|Hz]; [by apply compareTasks_pos_key|].
    rewrite Forall_forall in Hy. by apply Hy.
  - apply compareTasks_not_pos_key in E.
    constructor; [by constructor|]. constructor; [done|].
    eapply Forall_impl; [exact Hy|]. simpl. intros z Hz. by eapply key_le_trans.
Qed.

(** X3.  Whatever the host collation does, sorting with [compareTasks]
    orders tasks by resolved start date: in the sorted list a task never
    comes before a task with an earlier start date, and tasks whose start
    date does not resolve come last.  This holds of every sibling group
    of the outline. *)
Theorem siblings_sorted_by_start (tasks : list Task.t) (key : option Z) (l : list Task.t) :
  StronglySorted (λ a b, key_le (startKey a) (startKey b)) (js_sort compareTasks l) ∧
  StronglySorted (λ a b, key_le (startKey a) (startKey b))
    (sortedBucket (groupByParent tasks) key).
Proof.
  assert (∀ l, StronglySorted (λ a b, key_le (startKey a) (startKey b))
                 (js_sort compareTasks l)) as Hsorted.
  { clear. induction l as [|x l IH]; simpl; [constructor|]. by apply sort_insert_by_start. }
  split; [apply Hsorted|]. unfold sortedBucket. apply Hsorted.
Qed.

(** X4.  [compareTasks] never returns NaN, and when the start keys of two
    tasks differ its sign is antisymmetric and never zero: exactly one of
    the two tasks is put first, the same one whichever way round they are
    compared. *)
Theorem compareTasks_sign (a b : Task.t) :
  compareTasks a b ≠ NaN ∧
  (startKey a ≠ startKey b →
     num_neg (compareTasks a b) = num_pos (compareTasks b a) ∧
     num_pos (compareTasks a b) = num_neg (compareTasks b a) ∧
     num_neg (compareTasks a b) = negb (num_pos (compareTasks a b))).
Proof.
  unfold compareTasks.
  destruct (startKey_cases a) as [[x Ha]|Ha], (startKey_cases b) as [[y Hb]|Hb];
    rewrite Ha, Hb; simpl.
  - split; [by destruct (x =? y)|]. intros Hne.
    assert (x ≠ y) as Hxy by congruence.
    destruct (Z.eqb_spec x y) as [?|_]; [done|].
    destruct (Z.eqb_spec y x) as [?|_]; [by subst|]. simpl.
    destruct (Z.ltb_spec (x - y) 0), (Z.ltb_spec 0 (y - x)), (Z.ltb_spec 0 (x - y)),
      (Z.ltb_spec (y - x) 0); simpl; try done; lia.
  - done.
  - done.
  - split; [done|]. by intros [].
Qed.

Lemma filter_none {A : Type} (P : A → Prop) `{∀ x, Decision (P x)} (l : list A) :
  Forall (λ x, ¬ P x) l → filter P l = [].
Proof.
  induction 1 as [|x l Hx _ IH]; [done|]. by rewrite filter_cons_False.
Qed.

Lemma EmitsAll_level (kids : option Z → list Task.t) (numbering : nat → string)
    (l : list Task.t) (index depth : nat) (rows : list TaskRow.t) :
  EmitsAll kids numbering l index depth rows →
  TaskRow.task <$> filter (λ r, TaskRow.depth r = depth) rows = l.
Proof.
  induction 1 as [|numbering child rest index depth below after Hb _ Ha IHa]; [done|].
  rewrite filter_cons_True by done. rewrite filter_app.
  rewrite (filter_none _ below).
  - rewrite app_nil_l, fmap_cons. by rewrite IHa.
  - eapply Forall_impl; [exact (EmitsAll_within _ _ _ _ _ _ Hb)|].
    simpl. intros r [Hd _]. lia.
Qed.

(** X5.  The rows of depth 0, in the order in which they appear, are the
    rows of the tasks with no parent reference in sorted order; so there
    are as many top-level rows as there are such tasks. *)
Theorem buildTaskRows_top_level (fuel : nat) (tasks : list Task.t) (rows : list TaskRow.t) :
  buildTaskRows fuel tasks = Some rows →
  TaskRow.task <$> filter (λ r, TaskRow.depth r = 0%nat) rows
    = js_sort compareTasks (filter (λ t, Task.parentTaskId t = None) tasks) ∧
  length (filter (λ r, TaskRow.depth r = 0%nat) rows)
    = length (filter (λ t, Task.parentTaskId t = None) tasks).
Proof.
  intros Hrows. apply buildTaskRows_emits in Hrows.
  pose proof (EmitsAll_level _ _ _ _ _ _ Hrows) as Hlevel.
  assert (childrenOf tasks None
          = js_sort compareTasks (filter (λ t, Task.parentTaskId t = None) tasks)) as E.
  { unfold childrenOf. f_equal. by apply list_filter_iff. }
  rewrite E in Hlevel. split; [exact Hlevel|].
  rewrite <- (length_fmap TaskRow.task), Hlevel. by rewrite js_sort_Permutation.
Qed.

Lemma Reachable_emitted (tasks : list Task.t) (rows : list TaskRow.t) :
  EmitsAll (childrenOf tasks) rootNumber (childrenOf tasks None) 0 0 rows →
  ∀ path t, t ∈ tasks → rootChain tasks t path →
    ∃ row, row ∈ rows ∧ TaskRow.task row = t ∧ TaskRow.depth row = length path.
Proof.
  intros Hemits path. induction path as [|p path IH]; intros t Hin Hchain; simpl in Hchain.
  - assert (t ∈ childrenOf tasks None) as Ht by by apply elem_of_childrenOf.
    apply list_elem_of_lookup in Ht as (k & Hk).
    exists (TaskRow.mk t 0 (rootNumber (0 + k))). split; [|done].
    apply (EmitsAll_complete_top _ _ _ _ _ _ Hemits k t Hk).
  - destruct Hchain as (Hp & Hpin & Hchain).
    destruct (IH p Hpin Hchain) as (rp & Hrp & Htask & Hdepth).
    assert (t ∈ childrenOf tasks (Some (Task.id (TaskRow.task rp)))) as Ht.
    { apply elem_of_childrenOf. by rewrite Htask. }
    apply list_elem_of_lookup in Ht as (k & Hk).
    exists (TaskRow.mk t (TaskRow.depth rp + 1) (childNumber (TaskRow.number rp) k)).
    split; [|split; [done|simpl; lia]].
    apply (EmitsAll_complete_child _ _ _ _ _ _ Hemits rp k t Hrp Hk).
Qed.

(** X6.  When [buildTaskRows] returns, a task has a row exactly when it
    is in the input and a chain of parent references leads from it to a
    task with no parent; its row's depth is the length of that chain. *)
Theorem buildTaskRows_rows_iff_reachable (fuel : nat) (tasks : list Task.t)
    (rows : list TaskRow.t) :
  buildTaskRows fuel tasks = Some rows →
  ∀ t, (∃ row, row ∈ rows ∧ TaskRow.task row = t) ↔ Reachable tasks t.
Proof.
  intros Hrows t. split.
  - intros (row & Hin & <-). by apply (buildTaskRows_reachable fuel tasks rows).
  - intros [Hin [path Hpath]]. apply buildTaskRows_emits in Hrows.
    destruct (Reachable_emitted tasks rows Hrows path t Hin Hpath) as (row & ? & ? & _).
    by exists row.
Qed.

(** X7.  When no task of the input is without a parent reference (the
    empty input, or orphans and cycles only), [buildTaskRows] returns no
    row at all, and does so without making a single recursive call. *)
Theorem buildTaskRows_no_root (fuel : nat) (tasks : list Task.t) :
  (∀ t, t ∈ tasks → Task.parentTaskId t ≠ None) →
  buildTaskRows fuel tasks = Some [] ∧ buildTaskRows 0 tasks = Some [].
Proof.
  intros Hall.
  assert (childrenOf tasks None = []) as Hnil.
  { destruct (childrenOf tasks None) as [|t l] eqn:E; [done|].
    assert (t ∈ childrenOf tasks None) as Ht by (rewrite E; by left).
    apply elem_of_childrenOf in Ht as [Hp Hin]. by destruct (Hall t Hin). }
  unfold buildTaskRows. by rewrite sortedBucket_childrenOf, Hnil.
Qed.

(** *** Identifiers that are not unique *)

Lemma forEachIndexed_stuck {A S : Type} (body : A → nat → S → option S)
    (l : list A) (x : A) :
  x ∈ l → (∀ i s, body x i s = None) → ∀ i s, forEachIndexed body l i s = None.
Proof.
  intros Hin Hx. induction l as [|y l IH]; intros i s; [by apply elem_of_nil in Hin|].
  simpl. apply elem_of_cons in Hin as [<-|Hin]; [by rewrite Hx|].
  destruct (body y i s); [by apply IH|done].
Qed.

Lemma visit_stuck_up (tasks : list Task.t) (c : Task.t) (path : list Task.t) :
  (∀ fuel depth number rows,
     visit fuel (groupByParent tasks) c depth number rows = None) →
  c ∈ tasks →
  ∀ p, Task.parentTaskId c = Some (Task.id p) →
  ∀ fuel depth number rows, visit fuel (groupByParent tasks) p depth number rows = None.
Proof.
  intros Hc Hin p Hp fuel depth number rows. destruct fuel as [|fuel]; [done|].
  simpl. apply (forEachIndexed_stuck _ _ c); [|by intros].
  rewrite sortedBucket_childrenOf. by apply elem_of_childrenOf.
Qed.

(** X8.  Identifiers that are not unique can make the traversal run
    without end: when a task reachable from a root has, among the tasks
    that name its identifier as parent, a task carrying that same
    identifier, [buildTaskRows] returns for no amount of fuel. *)
Theorem buildTaskRows_diverges (tasks : list Task.t) (t c : Task.t) :
  Reachable tasks t →
  c ∈ tasks →
  Task.parentTaskId c = Some (Task.id t) →
  Task.id c = Task.id t →
  ∀ fuel, buildTaskRows fuel tasks = None.
Proof.
  intros [Hin [path Hpath]] Hc Hparent Hid.
  assert (∀ fuel depth number rows,
            visit fuel (groupByParent tasks) c depth number rows = None) as Hloop.
  { induction fuel as [|fuel IH]; intros depth number rows; [done|].
    simpl. apply (forEachIndexed_stuck _ _ c); [|by intros].
    rewrite sortedBucket_childrenOf. apply elem_of_childrenOf. by rewrite Hid. }
  assert (∀ fuel depth number rows,
            visit fuel (groupByParent tasks) t depth number rows = None) as Ht.
  { by apply (visit_stuck_up tasks c path). }
  clear Hloop Hc Hparent Hid c.
  revert t Hin Hpath Ht. induction path as [|p path IH]; intros t Hin Hpath Ht fuel.
  - simpl in Hpath. unfold buildTaskRows.
    apply (forEachIndexed_stuck _ _ t); [|by intros].
    rewrite sortedBucket_childrenOf. by apply elem_of_childrenOf.
  - simpl in Hpath. destruct Hpath as (Hp & Hpin & Hpath).
    apply (IH p Hpin Hpath). by apply (visit_stuck_up tasks t path).
Qed.

(** *** Depth and number *)

Lemma count_dots_app (a b : string) :
  count_dots (a +:+ b) = (count_dots a + count_dots b)%nat.
Proof.
  induction a as [|c a IH]; [done|]. rewrite string_app_cons. simpl. rewrite IH. lia.
Qed.

Lemma count_dots_dot_free (s : string) : dot_free s → count_dots s = 0%nat.
Proof.
  induction s as [|c s IH]; [done|]. simpl. intros [Hc Hs].
  rewrite decide_False by done. by rewrite IH.
Qed.

Lemma count_dots_childNumber (number : string) (k : nat) :
  count_dots (childNumber number k) = S (count_dots number).
Proof.
  unfold childNumber. rewrite !count_dots_app.
  rewrite (count_dots_dot_free (pretty _)) by apply pretty_nat_dot_free. simpl. lia.
Qed.

Lemma count_dots_numberOfPath (path : list nat) :
  path ≠ [] → S (count_dots (numberOfPath path)) = length path.
Proof.
  induction path as [|k path IH] using rev_ind; [done|]. intros _.
  destruct path as [|j ks].
  - simpl. by rewrite count_dots_dot_free by apply pretty_nat_dot_free.
  - rewrite numberOfPath_snoc by done. rewrite count_dots_childNumber, length_app.
    rewrite IH by done. simpl. lia.
Qed.

(** X9.  In every row the depth is the number of dots of the hierarchical
    number, so the indentation of a row ([depth * 16] pixels) is sixteen
    pixels per dot of its number. *)
Theorem buildTaskRows_depth_dots (fuel : nat) (tasks : list Task.t) (rows : list TaskRow.t) :
  buildTaskRows fuel tasks = Some rows →
  ∀ row, row ∈ rows →
    TaskRow.depth row = count_dots (TaskRow.number row) ∧
    rowPadding row = 16 * Z.of_nat (count_dots (TaskRow.number row)).
Proof.
  intros Hrows row Hin.
  destruct (buildTaskRows_positioned fuel tasks rows Hrows row Hin)
    as (path & Hpos & Hnum & Hlen).
  pose proof (count_dots_numberOfPath path (Positioned_nonempty _ _ _ Hpos)) as Hdots.
  assert (TaskRow.depth row = count_dots (TaskRow.number row)) as Hd
    by (rewrite Hnum; lia).
  split; [done|]. unfold rowPadding. rewrite Hd. lia.
Qed.

(** * Further properties of the geometry *)

(** ** Ratios *)

Lemma Qc_of_Z_pos (d : Z) : 0 < d → (0 < Qc_of_Z d)%Qc.
Proof. intros H. apply Z2Qc_inj_lt in H. by rewrite Z2Qc_inj_0 in H. Qed.

Lemma Qc_ratio_mono (a b d : Z) :
  a ≤ b → 0 < d → (Qc_of_Z a / Qc_of_Z d ≤ Qc_of_Z b / Qc_of_Z d)%Qc.
Proof.
  intros Hab Hd. unfold Qcdiv. apply Qcmult_le_mono_nonneg_r.
  - apply Qclt_le_weak, Qcinv_pos, Qc_of_Z_pos, Hd.
  - exact (proj1 (Z2Qc_inj_le a b) Hab).
Qed.

Lemma Qc_ratio_zero (d : Z) : (Qc_of_Z 0 / Qc_of_Z d)%Qc = Qc_of_Z 0.
Proof. unfold Qcdiv. by rewrite Z2Qc_inj_0, Qcmult_0_l. Qed.

Lemma Qc_ratio_one (d : Z) : 0 < d → (Qc_of_Z d / Qc_of_Z d)%Qc = Qc_of_Z 1.
Proof.
  intros Hd. unfold Qcdiv. rewrite Qcmult_inv_r; [by rewrite Z2Qc_inj_1|].
  intros H. rewrite <- Z2Qc_inj_0 in H. apply Z2Qc_inj in H. lia.
Qed.

Lemma Qc_scaled_nonneg (a d : Z) (w : Qc) :
  0 ≤ a → 0 < d → (Qc_of_Z 0 ≤ w)%Qc → (Qc_of_Z 0 ≤ Qc_of_Z a / Qc_of_Z d * w)%Qc.
Proof.
  intros Ha Hd Hw. rewrite Z2Qc_inj_0 in *. apply Qcmult_nonneg_nonneg; [|done].
  rewrite <- Z2Qc_inj_0, <- (Qc_ratio_zero d). by apply Qc_ratio_mono.
Qed.

Lemma Qc_scaled_le (a d : Z) (w : Qc) :
  a ≤ d → 0 < d → (Qc_of_Z 0 ≤ w)%Qc → (Qc_of_Z a / Qc_of_Z d * w ≤ w)%Qc.
Proof.
  intros Ha Hd Hw. rewrite Z2Qc_inj_0 in Hw.
  rewrite <- (Qcmult_1_l w) at 2. apply Qcmult_le_mono_nonneg_r; [done|].
  rewrite <- Z2Qc_inj_1, <- (Qc_ratio_one d Hd). by apply Qc_ratio_mono.
Qed.

Lemma Qc_scaled_mono (a b d : Z) (w : Qc) :
  a ≤ b → 0 < d → (Qc_of_Z 0 ≤ w)%Qc →
  (Qc_of_Z a / Qc_of_Z d * w ≤ Qc_of_Z b / Qc_of_Z d * w)%Qc.
Proof.
  intros Hab Hd Hw. rewrite Z2Qc_inj_0 in Hw.
  apply Qcmult_le_mono_nonneg_r; [done|]. by apply Qc_ratio_mono.
Qed.

Lemma Qc_scaled_add (a b d : Z) (w : Qc) :
  (Qc_of_Z a / Qc_of_Z d * w + Qc_of_Z b / Qc_of_Z d * w)%Qc
  = (Qc_of_Z (a + b) / Qc_of_Z d * w)%Qc.
Proof. rewrite Z2Qc_inj_add. unfold Qcdiv. ring. Qed.

Lemma Qc_hundred_nonneg : (Qc_of_Z 0 ≤ Qc_of_Z 100)%Qc.
Proof. apply (proj1 (Z2Qc_inj_le 0 100)). lia. Qed.

(** Where an interval of the collection lies in the range. *)
Lemma interval_in_range (tasks : list Task.t) (r : TimelineRange.t)
    (task : Task.t) (x : TaskRange.t) :
  timelineRange tasks = Some r → task ∈ tasks → getTaskRange task = Some x →
  0 ≤ TaskRange.start x - TimelineRange.startMs r ∧
  TaskRange.end_ x - TimelineRange.startMs r ≤ rangeMs r ∧
  0 < rangeMs r.
Proof.
  intros Hr Hin Hx.
  destruct (timelineRange_Some tasks r Hr) as (_ & Hlo & _ & Hhi & _).
  assert (x ∈ omap getTaskRange tasks) as Hx' by (apply list_elem_of_omap; eauto).
  specialize (Hlo x Hx'). specialize (Hhi x Hx').
  pose proof (rangeMs_pos r). unfold rangeMs in *. lia.
Qed.

(** X10.  The horizontal projection keeps the intervals of the collection
    on the surface: for a surface of non-negative width, the start of
    every interval is projected at or right of 0 and the end of every
    interval at or left of the width; an interval that does not end
    before it starts lies between 0 and the width entirely, start left
    of end. *)
Theorem toX_on_surface (tasks : list Task.t) (r : TimelineRange.t)
    (task : Task.t) (x : TaskRange.t) (timelineWidth : Qc) :
  timelineRange tasks = Some r → task ∈ tasks → getTaskRange task = Some x →
  (Qc_of_Z 0 ≤ timelineWidth)%Qc →
  (Qc_of_Z 0 ≤ toX r timelineWidth (TaskRange.start x))%Qc ∧
  (toX r timelineWidth (TaskRange.end_ x) ≤ timelineWidth)%Qc ∧
  (TaskRange.start x ≤ TaskRange.end_ x →
     (toX r timelineWidth (TaskRange.start x)
        ≤ toX r timelineWidth (TaskRange.end_ x))%Qc ∧
     (toX r timelineWidth (TaskRange.start x) ≤ timelineWidth)%Qc ∧
     (Qc_of_Z 0 ≤ toX r timelineWidth (TaskRange.end_ x))%Qc).
Proof.
  intros Hr Hin Hx Hw.
  destruct (interval_in_range tasks r task x Hr Hin Hx) as (Hlo & Hhi & Hd).
  unfold toX. split; [by apply Qc_scaled_nonneg|]. split; [by apply Qc_scaled_le|].
  intros Hle. split; [apply Qc_scaled_mono; [lia|done..]|].
  split; [apply Qc_scaled_le; [lia|done..]|]. apply Qc_scaled_nonneg; [lia|done..].
Qed.

(** ** Bars *)

(** X11.  There is one bar per row, in row order and keyed by the row's
    task identifier; the bar of a row is the bare placeholder exactly when
    the task has no interval or there is no range, and otherwise its top
    is [index * 48 + 16] pixels. *)
Theorem ganttBars_per_row (taskRows : list TaskRow.t) (tr : option TimelineRange.t) :
  length (ganttBars taskRows tr) = length taskRows ∧
  barKey <$> ganttBars taskRows tr = (λ row, Task.id (TaskRow.task row)) <$> taskRows ∧
  ∀ index row, taskRows !! index = Some row →
    ∃ bar, ganttBars taskRows tr !! index = Some bar ∧
      (isPlaceholder bar = true ↔
         getTaskRange (TaskRow.task row) = None ∨ tr = None) ∧
      (isPlaceholder bar = false →
         barTop bar = Some (Qc_of_Z (Z.of_nat index * 48 + 16))).
Proof.
  unfold ganttBars. split; [apply length_imap|]. split.
  - rewrite fmap_imap. rewrite <- (imap_const _ taskRows). apply imap_ext.
    intros i row _. simpl. unfold barOf.
    by destruct (getTaskRange (TaskRow.task row)), tr.
  - intros index row Hrow. exists (barOf tr index row).
    split; [by rewrite list_lookup_imap, Hrow|].
    unfold barOf. destruct (getTaskRange (TaskRow.task row)), tr; simpl.
    + split; [by split; [|intros [|]]|]. intros _. do 2 f_equal. unfold ROW_HEIGHT.
      change (48 / 2) with 24. lia.
    + split; [by split; [right|]|done].
    + split; [by split; [left|]|done].
    + split; [by split; [left|]|done].
Qed.

(** X12.  A styled bar of a task of the collection starts at or right of
    the left edge and is between 1% and 100% wide; when the interval does
    not end before it starts, the left offset is at most 100. *)
Theorem barOf_on_axis (tasks : list Task.t) (r : TimelineRange.t)
    (index : nat) (row : TaskRow.t) (x : TaskRange.t)
    (key : Z) (className : string) (top left width : Qc) :
  timelineRange tasks = Some r → TaskRow.task row ∈ tasks →
  getTaskRange (TaskRow.task row) = Some x →
  barOf (Some r) index row = BarStyled key className top left width →
  (Qc_of_Z 0 ≤ left)%Qc ∧
  (Qc_of_Z 1 ≤ width)%Qc ∧
  (width ≤ Qc_of_Z 100)%Qc ∧
  (TaskRange.start x ≤ TaskRange.end_ x → (left ≤ Qc_of_Z 100)%Qc).
Proof.
  intros Hr Hin Hx Hbar. unfold barOf in Hbar. rewrite Hx in Hbar.
  injection Hbar as _ _ _ <- <-.
  destruct (interval_in_range tasks r _ x Hr Hin Hx) as (Hlo & Hhi & Hd).
  pose proof Qc_hundred_nonneg as H100.
  split; [by apply Qc_scaled_nonneg|]. split; [apply Qc_max_ge_r|]. split.
  - destruct (Qc_max_cases
               (Qc_of_Z (TaskRange.end_ x - TaskRange.start x) / Qc_of_Z (rangeMs r)
                * Qc_of_Z 100)%Qc (Qc_of_Z 1)) as [-> | ->].
    + apply Qc_scaled_le; [lia|done..].
    + apply (proj1 (Z2Qc_inj_le 1 100)). lia.
  - intros Hle. apply Qc_scaled_le; [lia|done..].
Qed.

(** ** The index of rows and the dependency lines *)

Lemma taskIndexById_is_Some (taskRows : list TaskRow.t) (id : Z) :
  is_Some (taskIndexById taskRows !! id) ↔
  ∃ row, row ∈ taskRows ∧ Task.id (TaskRow.task row) = id.
Proof.
  induction taskRows as [|x l IH] using rev_ind.
  { unfold taskIndexById. simpl. rewrite lookup_empty. split.
    - by intros [? ?].
    - intros (row & Hin & _). by apply elem_of_nil in Hin. }
  rewrite taskIndexById_snoc.
  destruct (decide (Task.id (TaskRow.task x) = id)) as [Hid|Hid].
  - rewrite Hid, lookup_insert_eq. split; [|by eexists].
    intros _. exists x. split; [|done]. apply elem_of_app. right. by left.
  - rewrite lookup_insert_ne by done. rewrite IH. split.
    + intros (row & Hin & Hrow). exists row. split; [|done]. apply elem_of_app. by left.
    + intros (row & Hin & Hrow). exists row. split; [|done].
      apply elem_of_app in Hin as [Hin|Hin]; [done|].
      apply list_elem_of_singleton in Hin. by subst.
Qed.

(** X13.  [taskIndexById] finds a row for an identifier exactly when some
    row carries it, and what it finds is the position of the last such
    row: looking the identifier up and reading the row at the result
    gives a row with that identifier. *)
Theorem taskIndexById_round_trip (taskRows : list TaskRow.t) (id : Z) :
  (taskIndexById taskRows !! id = None ↔
     ∀ row, row ∈ taskRows → Task.id (TaskRow.task row) ≠ id) ∧
  (∀ i, taskIndexById taskRows !! id = Some i →
     (i < length taskRows)%nat ∧
     (∃ row, taskRows !! i = Some row ∧ Task.id (TaskRow.task row) = id) ∧
     (∀ j row, taskRows !! j = Some row → Task.id (TaskRow.task row) = id → (j ≤ i)%nat)) ∧
  (∀ i row, taskRows !! i = Some row → Task.id (TaskRow.task row) = id →
     ∃ j, taskIndexById taskRows !! id = Some j ∧ (i ≤ j)%nat).
Proof.
  split; [|split].
  - rewrite eq_None_not_Some, taskIndexById_is_Some. split.
    + intros Hno row Hin Hid. apply Hno. by exists row.
    + intros Hall (row & Hin & Hid). by apply (Hall row).
  - intros i Hi. apply taskIndexById_lookup in Hi as [(row & Hrow & Hid) Hmax].
    split; [by apply lookup_lt_Some in Hrow|]. split; [by exists row|done].
  - intros i row Hrow Hid.
    assert (is_Some (taskIndexById taskRows !! id)) as [j Hj].
    { apply taskIndexById_is_Some. exists row. split; [|done].
      by eapply list_elem_of_lookup_2. }
    exists j. split; [done|].
    apply taskIndexById_lookup in Hj as [_ Hmax]. by apply (Hmax i row).
Qed.

Lemma toY_centre (index : nat) : toY index = Qc_of_Z (Z.of_nat index * 48 + 24).
Proof.
  unfold toY, ROW_HEIGHT.
  assert ((Qc_of_Z 48 / Qc_of_Z 2)%Qc = Qc_of_Z 24) as -> by by apply Qc_is_canon.
  by rewrite Z2Qc_inj_add, Z2Qc_inj_mul.
Qed.

Lemma ganttBars_top (taskRows : list TaskRow.t) (r : TimelineRange.t)
    (index : nat) (row : TaskRow.t) (x : TaskRange.t) :
  taskRows !! index = Some row → getTaskRange (TaskRow.task row) = Some x →
  barTop <$> ganttBars taskRows (Some r) !! index
  = Some (Some (Qc_of_Z (Z.of_nat index * 48 + 16))).
Proof.
  intros Hrow Hx. unfold ganttBars. rewrite list_lookup_imap, Hrow. simpl.
  unfold barOf. rewrite Hx. simpl. unfold ROW_HEIGHT. change (48 / 2) with 24.
  do 3 f_equal. lia.
Qed.

(** X14.  Both ends of every dependency line sit on rows of the list, at
    the vertical centre of the row, strictly inside the overlay; and both
    rows have a styled bar whose top is 8 pixels above the line's end. *)
Theorem dependencyLines_vertical (taskRows : list TaskRow.t)
    (tr : option TimelineRange.t) (timelineWidth : Qc) (line : Line.t) :
  line ∈ dependencyLines (taskIndexById taskRows) taskRows tr timelineWidth →
  ∃ dependencyIndex rowIndex,
    (dependencyIndex < length taskRows)%nat ∧ (rowIndex < length taskRows)%nat ∧
    Line.y1 line = Qc_of_Z (Z.of_nat dependencyIndex * ROW_HEIGHT + ROW_HEIGHT / 2) ∧
    Line.y2 line = Qc_of_Z (Z.of_nat rowIndex * ROW_HEIGHT + ROW_HEIGHT / 2) ∧
    (Qc_of_Z 0 < Line.y1 line < Qc_of_Z (overlayHeight taskRows))%Qc ∧
    (Qc_of_Z 0 < Line.y2 line < Qc_of_Z (overlayHeight taskRows))%Qc ∧
    barTop <$> ganttBars taskRows tr !! dependencyIndex = Some (Some (Line.y1 line - Qc_of_Z 8)%Qc) ∧
    barTop <$> ganttBars taskRows tr !! rowIndex = Some (Some (Line.y2 line - Qc_of_Z 8)%Qc).
Proof.
  intros Hline.
  destruct (dependencyLines_cases _ _ _ _ _ Hline) as (r & -> & Hw).
  apply elem_of_dependencyLines in Hline
    as (rowIndex & row & taskRange & di & drow & drange
        & Hrow & Erange & _ & _ & Hdrow & Edrange & ->); [|done].
  pose proof (lookup_lt_Some _ _ _ Hrow) as Hi.
  pose proof (lookup_lt_Some _ _ _ Hdrow) as Hdi.
  exists di, rowIndex.
  rewrite (ganttBars_top _ _ _ _ _ Hrow Erange), (ganttBars_top _ _ _ _ _ Hdrow Edrange).
  unfold lineBetween, overlayHeight. simpl.
  rewrite !toY_centre. unfold ROW_HEIGHT. change (48 / 2) with 24.
  rewrite <- !Z2Qc_inj_sub.
  split_and!; try done.
  all: try (apply (proj1 (Z2Qc_inj_lt _ _)); lia).
  all: do 3 f_equal; lia.
Qed.

Lemma omap_length_le {A B : Type} (f : A → option B) (l : list A) :
  (length (omap f l) ≤ length l)%nat.
Proof.
  induction l as [|x l IH]; simpl; [done|].
  change (list_omap A B f l) with (omap f l). destruct (f x); simpl; lia.
Qed.

(** X15.  There is at most one line per dependency reference: the number
    of lines is bounded by the total length of the dependency lists of the
    rows. *)
Theorem dependencyLines_count (index : gmap Z nat) (taskRows : list TaskRow.t)
    (tr : option TimelineRange.t) (timelineWidth : Qc) :
  (length (dependencyLines index taskRows tr timelineWidth)
   ≤ sum_list ((λ row, length (Task.dependsOn (TaskRow.task row))) <$> taskRows))%nat.
Proof.
  unfold dependencyLines. destruct tr as [r|]; [|simpl; lia].
  case_decide; [simpl; lia|]. rewrite foldl_dependencyRowStep. simpl.
  assert (∀ l : list (nat * TaskRow.t),
            (length (l ≫= linesOfRow r timelineWidth index taskRows)
             ≤ sum_list ((λ ri, length (Task.dependsOn (TaskRow.task ri.2))) <$> l))%nat)
    as Hbound.
  { induction l as [|ri l IH]; [done|].
    rewrite bind_cons, length_app, fmap_cons. simpl.
    assert (length (linesOfRow r timelineWidth index taskRows ri)
            ≤ length (Task.dependsOn (TaskRow.task ri.2)))%nat; [|lia].
    unfold linesOfRow. destruct (getTaskRange (TaskRow.task ri.2)); simpl; [|lia].
    apply omap_length_le. }
  etrans; [apply Hbound|]. rewrite fmap_imap. simpl.
  by rewrite <- (imap_const _ taskRows).
Qed.

Lemma linesOfRow_y2 (r : TimelineRange.t) (timelineWidth : Qc) (index : gmap Z nat)
    (taskRows : list TaskRow.t) (ri : nat * TaskRow.t) (line : Line.t) :
  line ∈ linesOfRow r timelineWidth index taskRows ri → Line.y2 line = toY ri.1.
Proof.
  unfold linesOfRow. destruct (getTaskRange (TaskRow.task ri.2)) as [x|];
    [|by intros ?%elem_of_nil].
  intros (d & _ & Hline)%list_elem_of_omap. unfold lineFor in Hline.
  destruct (index !! d) as [di|]; [|done]. simpl in Hline.
  destruct (taskRows !! di) as [drow|]; [|done]. simpl in Hline.
  destruct (getTaskRange (TaskRow.task drow)); [|done]. simpl in Hline.
  by injection Hline as <-.
Qed.

Lemma toY_mono (i j : nat) : (i ≤ j)%nat → (toY i ≤ toY j)%Qc.
Proof. intros Hij. rewrite !toY_centre. apply (proj1 (Z2Qc_inj_le _ _)). lia. Qed.

Lemma imap_sorted_by_index (taskRows : list TaskRow.t) (f : nat → TaskRow.t → nat * TaskRow.t) :
  (∀ i j x y, (i ≤ j)%nat → ((f i x).1 ≤ (f j y).1)%nat) →
  StronglySorted (λ a b : nat * TaskRow.t, (a.1 ≤ b.1)%nat) (imap f taskRows).
Proof.
  revert f. induction taskRows as [|x l IH]; intros f Hf; [constructor|].
  rewrite imap_cons. constructor.
  - apply IH. intros i j a b Hij. apply Hf. lia.
  - apply Forall_forall. intros y (i & b & -> & _)%elem_of_lookup_imap_1.
    apply Hf. lia.
Qed.

(** X22.  The lines are emitted row by row from the top: along the list
    of lines the vertical position of the dependent end never decreases,
    so all lines of a row come before the lines of every row below it. *)
Theorem dependencyLines_top_down (index : gmap Z nat) (taskRows : list TaskRow.t)
    (tr : option TimelineRange.t) (timelineWidth : Qc) :
  StronglySorted (λ a b, (Line.y2 a ≤ Line.y2 b)%Qc)
    (dependencyLines index taskRows tr timelineWidth).
Proof.
  unfold dependencyLines. destruct tr as [r|]; [|constructor].
  case_decide; [constructor|]. rewrite foldl_dependencyRowStep. simpl.
  assert (∀ l : list (nat * TaskRow.t),
            StronglySorted (λ a b : nat * TaskRow.t, (a.1 ≤ b.1)%nat) l →
            StronglySorted (λ a b, (Line.y2 a ≤ Line.y2 b)%Qc)
              (l ≫= linesOfRow r timelineWidth index taskRows)) as Hsorted.
  { induction 1 as [|ri l Hl IH Hri]; [constructor|].
    rewrite bind_cons. apply StronglySorted_app_2; [| |done].
    - intros a b Ha (rj & Hb & Hrj)%list_elem_of_bind.
      rewrite (linesOfRow_y2 _ _ _ _ _ _ Ha), (linesOfRow_y2 _ _ _ _ _ _ Hb).
      apply toY_mono. rewrite Forall_forall in Hri. by apply Hri.
    - assert (∀ a, a ∈ linesOfRow r timelineWidth index taskRows ri →
                   Line.y2 a = toY ri.1) as Hall by (intros; by eapply linesOfRow_y2).
      induction (linesOfRow r timelineWidth index taskRows ri) as [|a k IHk]; [constructor|].
      constructor.
      + apply IHk. intros b Hb. apply Hall. by right.
      + apply Forall_forall. intros b Hb.
        rewrite (Hall a) by by left. rewrite (Hall b) by by right. done. }
  apply Hsorted, imap_sorted_by_index. intros i j x y Hij. simpl. lia.
Qed.

(** ** The range, the ticks and the label *)

(** X16.  The range does not depend on the order of the tasks. *)
Theorem timelineRange_order_independent (tasks tasks' : list Task.t) :
  tasks ≡ₚ tasks' → timelineRange tasks = timelineRange tasks'.
Proof.
  intros Hperm.
  destruct (timelineRange tasks) as [r|] eqn:E, (timelineRange tasks') as [r'|] eqn:E'.
  - destruct (timelineRange_Some tasks r E)
      as ((x1 & Hx1 & E1) & Hlo & (x2 & Hx2 & E2) & Hhi & Hs & He).
    destruct (timelineRange_Some tasks' r' E')
      as ((x1' & Hx1' & E1') & Hlo' & (x2' & Hx2' & E2') & Hhi' & Hs' & He').
    assert (omap getTaskRange tasks ≡ₚ omap getTaskRange tasks') as Hranges
      by by rewrite Hperm.
    assert (TimelineRange.startMs r = TimelineRange.startMs r') as Hstart.
    { rewrite Hranges in Hx1. rewrite <- Hranges in Hx1'.
      specialize (Hlo x1' Hx1'). specialize (Hlo' x1 Hx1). lia. }
    assert (TimelineRange.endMs r = TimelineRange.endMs r') as Hend.
    { rewrite Hranges in Hx2. rewrite <- Hranges in Hx2'.
      specialize (Hhi x2' Hx2'). specialize (Hhi' x2 Hx2). lia. }
    destruct r, r'. simpl in *. congruence.
  - exfalso. pose proof (proj1 (timelineRange_None tasks') E') as Hn. clear E'. rename Hn into E'.
    destruct (timelineRange_Some tasks r E) as ((x & Hx & _) & _).
    apply list_elem_of_omap in Hx as (t & Hin & Hx).
    assert (is_Some (parseDate (Task.startDate t))) as [s Hs]
      by (apply getTaskRange_is_Some; eauto).
    rewrite E' in Hs; [done|]. by rewrite <- Hperm.
  - exfalso. pose proof (proj1 (timelineRange_None tasks) E) as Hn. clear E. rename Hn into E.
    destruct (timelineRange_Some tasks' r' E') as ((x & Hx & _) & _).
    apply list_elem_of_omap in Hx as (t & Hin & Hx).
    assert (is_Some (parseDate (Task.startDate t))) as [s Hs]
      by (apply getTaskRange_is_Some; eauto).
    rewrite E in Hs; [done|]. by rewrite Hperm.
  - done.
Qed.

Lemma newDate_of_Z (z : Z) :
  newDate (Qc_of_Z z) = if Z.abs z <=? 8640000000000000 then Some z else None.
Proof. unfold newDate. simpl. by rewrite Z.quot_1_r. Qed.

Lemma tick_offset_first (s d : Z) :
  (Qc_of_Z s + Qc_of_Z d * (Qc_of_Z 0 / Qc_of_Z tickCount))%Qc = Qc_of_Z s.
Proof. rewrite Qc_ratio_zero, Z2Qc_inj_0. ring. Qed.

Lemma tick_offset_last (s d : Z) :
  (Qc_of_Z s + Qc_of_Z d * (Qc_of_Z 4 / Qc_of_Z tickCount))%Qc = Qc_of_Z (s + d).
Proof.
  unfold tickCount. rewrite Qc_ratio_one by lia. rewrite Z2Qc_inj_1, Z2Qc_inj_add. ring.
Qed.

(** X17.  For a range whose bounds are within 2^52 milliseconds of the
    epoch, the ticks span the range: the first tick is labelled with the
    date of the range's start and the last one with the date [rangeMs]
    later, which is the range's end whenever the range starts before it
    ends. *)
Theorem timelineTicks_span (r : TimelineRange.t) :
  Z.abs (TimelineRange.startMs r) ≤ 4503599627370496 →
  Z.abs (TimelineRange.endMs r) ≤ 4503599627370496 →
  head (Tick.label <$> timelineTicks (Some r))
    = Some (toLocaleShort (Some (TimelineRange.startMs r))) ∧
  last (Tick.label <$> timelineTicks (Some r))
    = Some (toLocaleShort (Some (TimelineRange.startMs r + rangeMs r))) ∧
  (TimelineRange.startMs r < TimelineRange.endMs r →
   last (Tick.label <$> timelineTicks (Some r))
     = Some (toLocaleShort (Some (TimelineRange.endMs r)))).
Proof.
  intros Hs He.
  unfold timelineTicks. change (seqZ 0 (tickCount + 1)) with [0; 1; 2; 3; 4].
  cbn [foldl app fmap list_fmap head last]. unfold tickAt. cbn [Tick.label formatShortDate].
  rewrite tick_offset_first, tick_offset_last, !newDate_of_Z.
  assert ((Z.abs (TimelineRange.startMs r) <=? 8640000000000000) = true) as ->
    by (apply Z.leb_le; lia).
  assert ((Z.abs (TimelineRange.startMs r + rangeMs r) <=? 8640000000000000) = true) as ->
    by (apply Z.leb_le; unfold rangeMs; lia).
  split; [done|]. split; [done|]. intros Hlt. do 3 f_equal. unfold rangeMs. lia.
Qed.

(** X18.  When no task has a start date that resolves, everything that
    depends on the range is empty: there is no range, no tick and no
    dependency line, every bar is the bare placeholder, and the header
    shows the text for the unscheduled case. *)
Theorem unscheduled_collection (tasks : list Task.t) (index : gmap Z nat)
    (taskRows : list TaskRow.t) (timelineWidth : Qc) :
  (∀ task, task ∈ tasks → parseDate (Task.startDate task) = None) →
  timelineRange tasks = None ∧
  timelineTicks (timelineRange tasks) = [] ∧
  dependencyLines index taskRows (timelineRange tasks) timelineWidth = [] ∧
  Forall (λ bar, isPlaceholder bar = true) (ganttBars taskRows (timelineRange tasks)) ∧
  timelineRangeLabel (timelineRange tasks) = "No scheduled dates".
Proof.
  intros Hnone. rewrite (proj2 (timelineRange_None tasks) Hnone).
  split_and!; try done.
  apply Forall_forall. intros bar Hin. unfold ganttBars in Hin.
  apply elem_of_lookup_imap_1 in Hin as (i & row & -> & _).
  unfold barOf. by destruct (getTaskRange (TaskRow.task row)).
Qed.

Lemma has_dash_app (a b : string) : has_dash (a +:+ b) = has_dash a || has_dash b.
Proof.
  induction a as [|c a IH]; [done|]. rewrite string_app_cons. simpl.
  by rewrite IH, orb_assoc.
Qed.

(** X19.  The header label is the text for the unscheduled case exactly
    when no task has a start date that resolves; otherwise it is the two
    formatted ends of the range around a dash. *)
Theorem timelineRangeLabel_sentinel (tasks : list Task.t) :
  timelineRangeLabel (timelineRange tasks) = "No scheduled dates" ↔
  ∀ task, task ∈ tasks → parseDate (Task.startDate task) = None.
Proof.
  rewrite <- timelineRange_None. split.
  - destruct (timelineRange tasks) as [r|]; [|done]. simpl. intros Heq.
    apply (f_equal has_dash) in Heq. rewrite !has_dash_app in Heq.
    change (has_dash " - ") with true in Heq.
    change (has_dash "No scheduled dates") with false in Heq.
    by rewrite orb_true_r in Heq.
  - by intros ->.
Qed.

(** ** formatDate *)

(** X20.  Formatting a date string gives the same text as formatting the
    date that [parseDate] resolves it to, when it resolves; a non-empty
    string that does not resolve is shown unchanged; a missing or empty
    value and an invalid date give the dash.  On strings the function
    agrees with the [formatDate] of the earlier [App.tsx]. *)
Theorem formatDate_consistent (value : option string) :
  (∀ t, parseDate value = Some t →
        formatDate (StringValue <$> value) = formatDate (Some (DateValue (Some t)))) ∧
  (∀ s, value = Some s → s ≠ "" → parseDate value = None →
        formatDate (StringValue <$> value) = s) ∧
  (value = None ∨ value = Some "" → formatDate (StringValue <$> value) = "—") ∧
  formatDate (Some (DateValue None)) = "—" ∧
  formatDate (StringValue <$> value) = formatDate_v1 value.
Proof.
  split_and!.
  - intros t Ht. destruct value as [[|c s]|]; simpl in *; try done. by rewrite Ht.
  - intros s -> Hs Hnone. destruct s as [|c s]; [done|]. simpl in *. by rewrite Hnone.
  - by intros [-> | ->].
  - done.
  - by destruct value as [[|c s]|].
Qed.

(** ** Project selection *)

(** X21.  The selected project is a project of the list that carries the
    selected identifier, the first such; there is none exactly when no
    project carries it (in particular when nothing is selected).  Loading
    a list of projects keeps a selection that was already made, and
    otherwise selects the first project of the list, which is then the
    selected project; an empty list leaves nothing selected. *)
Theorem selection_after_load (projects : list Project.t) (current : option Z) :
  (∀ p, selectedProject projects current = Some p →
        p ∈ projects ∧ current = Some (Project.id p)) ∧
  (selectedProject projects current = None ↔
     ∀ p, p ∈ projects → Some (Project.id p) ≠ current) ∧
  (is_Some current → nextSelection projects current = current) ∧
  selectedProject projects (nextSelection projects None) = head projects ∧
  (nextSelection projects None = None ↔ projects = []).
Proof.
  unfold selectedProject. split_and!.
  - intros p Hp. apply find_some in Hp as [Hin Hid].
    apply bool_decide_eq_true_1 in Hid. by apply list_elem_of_In in Hin.
  - split.
    + intros Hnone p Hin. apply list_elem_of_In in Hin.
      apply (find_none _ _ Hnone) in Hin. by apply bool_decide_eq_false_1 in Hin.
    + intros Hall. destruct (find _ projects) as [p|] eqn:E; [|done].
      apply find_some in E as [Hin Hid]. apply bool_decide_eq_true_1 in Hid.
      apply list_elem_of_In in Hin. by destruct (Hall p Hin).
  - by intros [c ->].
  - destruct projects as [|p l]; [done|]. simpl. by rewrite bool_decide_eq_true_2.
  - destruct projects; simpl; split; done.
Qed.

End Engine.

(** * The engine on the examples *)

Import Examples.

(** Runs the engine on a closed input to produce the value an existential asks for. *)
Ltac by_running := eexists; vm_compute; reflexivity.

Lemma NoDup_by_decide {A : Type} `{EqDecision A} (l : list A) :
  bool_decide (NoDup l) = true → NoDup l.
Proof. apply bool_decide_eq_true_1. Defined.

Lemma Qc_800_nonzero : Qc_of_Z 800 ≠ Qc_of_Z 0.
Proof. intros H. apply (f_equal this) in H. vm_compute in H. discriminate. Defined.

(** ** The range *)

(** C1, as written, fails: one task whose due date is before its start
    date gives a range that ends before it starts. *)
Lemma timelineRange_end_before_start :
  ∃ r, timelineRange IsoDate.parse backwards = Some r ∧
       TimelineRange.startMs r = 1704412800000 ∧
       TimelineRange.endMs r = 1704067200000 ∧
       ¬ (TimelineRange.startMs r ≤ TimelineRange.endMs r).
Proof. eexists. split; [vm_compute; reflexivity|]. simpl. lia. Qed.

Lemma timelineRange_divisor_witness :
  ∃ r, timelineRange IsoDate.parse scenarioA = Some r ∧
       rangeMs r = Z.max 1 (TimelineRange.endMs r - TimelineRange.startMs r) ∧
       1 ≤ rangeMs r ∧ rangeMs r ≠ 0 ∧
       TimelineRange.startMs r + 1 ≤ TimelineRange.startMs r + rangeMs r ∧
       TimelineRange.startMs r ≤ TimelineRange.endMs r.
Proof.
  assert (∃ r, timelineRange IsoDate.parse scenarioA = Some r) as [r Hr].
  { by_running. }
  exists r. split; [exact Hr|].
  destruct (timelineRange_divisor IsoDate.parse scenarioA r Hr)
    as (Hdef & Hpos & Hnz & Hbump & Hle).
  split; [exact Hdef|]. split; [exact Hpos|]. split; [exact Hnz|]. split; [exact Hbump|].
  apply Hle. exists design.
  eexists. split; [by left|]. split; [vm_compute; reflexivity|]. simpl. lia.
Defined.

Lemma timelineRange_spec_witness :
  timelineRange IsoDate.parse scenarioA
    = Some (TimelineRange.mk 1704067200000 1704412800000 1704067200000 1704412800000) ∧
  (timelineRange IsoDate.parse cyclic = None ↔
     ∀ task, task ∈ cyclic → parseDate IsoDate.parse (Task.startDate task) = None).
Proof.
  split; [vm_compute; reflexivity|].
  exact (proj1 (proj2 (timelineRange_spec IsoDate.parse cyclic))).
Defined.

(** ** The comparator *)

(** C3, as written, fails: with equal start dates the names [a] and [B]
    are ordered [a] first, by the host collation, whereas the
    case-sensitive lexicographic order of the two strings puts [B] first. *)
Lemma compareTasks_tie_not_code_unit_order :
  startKey IsoDate.parse lowerA = startKey IsoDate.parse upperB ∧
  num_neg (compareTasks IsoDate.parse RootCollation.localeCompare lowerA upperB) = true ∧
  String.ltb (Task.name upperB) (Task.name lowerA) = true ∧
  Task.name <$> js_sort (compareTasks IsoDate.parse RootCollation.localeCompare) mixedCase
    = ["a"; "B"].
Proof. by vm_compute. Qed.

Lemma compareTasks_order_witness :
  startKey IsoDate.parse lowerA = startKey IsoDate.parse upperB ∧
  compareTasks IsoDate.parse RootCollation.localeCompare lowerA upperB
    = Fin (RootCollation.localeCompare "a" "B").
Proof.
  assert (startKey IsoDate.parse lowerA = startKey IsoDate.parse upperB) as Hkey
    by by vm_compute.
  split; [exact Hkey|].
  exact (proj2 (proj2
    (compareTasks_order IsoDate.parse RootCollation.localeCompare lowerA upperB)) Hkey).
Defined.

(** ** The outline *)

Example scenarioA_rows :
  (λ r, (Task.id (TaskRow.task r), TaskRow.depth r, TaskRow.number r))
    <$> default [] (buildTaskRows IsoDate.parse RootCollation.localeCompare 2 scenarioA)
  = [(1, 0%nat, "1"); (2, 1%nat, "1.1")].
Proof. by vm_compute. Qed.

Example scenarioB_rows :
  (λ r, (Task.name (TaskRow.task r), TaskRow.number r))
    <$> default [] (buildTaskRows IsoDate.parse RootCollation.localeCompare 2 scenarioB)
  = [("Alpha", "1"); ("Beta", "2")].
Proof. by vm_compute. Qed.

Example scenarioC_rows :
  (λ r, Task.name (TaskRow.task r))
    <$> default [] (buildTaskRows IsoDate.parse RootCollation.localeCompare 2 scenarioC)
  = ["Kept"].
Proof. by vm_compute. Qed.

Example cyclic_rows :
  (λ r, Task.name (TaskRow.task r))
    <$> default [] (buildTaskRows IsoDate.parse RootCollation.localeCompare 4 cyclic)
  = ["Root"].
Proof. by vm_compute. Qed.

Example ping_on_cycle : OnCycle cyclic ping.
Proof.
  exists [pong; ping]. split; [|done]. simpl.
  split; [done|]. split; [by do 2 right; left|].
  split; [done|]. split; [by right; left|done].
Qed.

Example selfParent_on_cycle : OnCycle cyclic selfParent.
Proof.
  exists [selfParent]. split; [|done]. simpl.
  split; [done|]. split; [by do 3 right; left|done].
Qed.

(** Identifiers that are not unique can make the traversal run forever:
    no amount of fuel is enough for a root that shares its identifier
    with its own child. *)
Example duplicate_ids_diverge (fuel : nat) :
  buildTaskRows IsoDate.parse RootCollation.localeCompare fuel
    [task 1 "A" None [] None None; task 1 "B" (Some 1) [] None None] = None.
Proof.
  unfold buildTaskRows. rewrite sortedBucket_childrenOf.
  change (childrenOf _ _ _ None) with [task 1 "A" None [] None None]. simpl.
  assert (∀ t d n rows, Task.id t = 1 →
            visit IsoDate.parse RootCollation.localeCompare fuel
              (groupByParent [task 1 "A" None [] None None; task 1 "B" (Some 1) [] None None])
              t d n rows = None) as Hloop.
  { induction fuel as [|fuel IH]; intros t d n rows Hid; [done|].
    simpl. rewrite sortedBucket_childrenOf, Hid.
    change (childrenOf _ _ _ (Some 1)) with [task 1 "B" (Some 1) [] None None]. simpl.
    by rewrite IH. }
  by rewrite Hloop.
Qed.

Lemma buildTaskRows_dangling_parent_excluded_witness :
  ∃ rows, buildTaskRows IsoDate.parse RootCollation.localeCompare 2 scenarioC = Some rows ∧
          Task.parentTaskId orphan = Some 99 ∧
          (∀ q, Reachable scenarioC q → Task.id q ≠ 99) ∧
          ∀ row, row ∈ rows → TaskRow.task row ≠ orphan.
Proof.
  assert (∃ rows, buildTaskRows IsoDate.parse RootCollation.localeCompare 2 scenarioC
                  = Some rows) as [rows Hrows].
  { by_running. }
  assert (∀ q, Reachable scenarioC q → Task.id q ≠ 99) as Hnone.
  { intros q [Hq _]. unfold scenarioC in Hq.
    repeat (apply elem_of_cons in Hq as [->|Hq]; [done|]). by apply elem_of_nil in Hq. }
  exists rows. split; [exact Hrows|]. split; [reflexivity|]. split; [exact Hnone|].
  exact (buildTaskRows_dangling_parent_excluded IsoDate.parse RootCollation.localeCompare
           2 scenarioC rows orphan 99 Hrows eq_refl Hnone).
Defined.

Lemma outline_terminates_without_revisit_witness :
  NoDup (Task.id <$> cyclic) ∧
  ∃ rows,
    (∀ fuel, (length cyclic ≤ fuel)%nat →
       buildTaskRows IsoDate.parse RootCollation.localeCompare fuel cyclic = Some rows) ∧
    NoDup ((λ r, Task.id (TaskRow.task r)) <$> rows) ∧
    (length rows ≤ length cyclic)%nat ∧
    (∀ row, row ∈ rows → Reachable cyclic (TaskRow.task row)) ∧
    (∀ t, OnCycle cyclic t →
       Task.parentTaskId t ≠ None ∧ ¬ Reachable cyclic t ∧
       ∀ row, row ∈ rows → TaskRow.task row ≠ t).
Proof.
  assert (NoDup (Task.id <$> cyclic)) as Hids by (apply NoDup_by_decide; by vm_compute).
  split; [exact Hids|].
  exact (outline_terminates_without_revisit IsoDate.parse RootCollation.localeCompare cyclic Hids).
Defined.

Lemma buildTaskRows_preorder_witness :
  ∃ rows, buildTaskRows IsoDate.parse RootCollation.localeCompare 7 forest = Some rows ∧
    (λ r, (Task.id (TaskRow.task r), TaskRow.depth r, TaskRow.number r)) <$> rows
      = [(11, 0%nat, "1"); (15, 1%nat, "1.1"); (10, 0%nat, "2"); (12, 1%nat, "2.1");
         (13, 1%nat, "2.2"); (14, 1%nat, "2.3"); (16, 2%nat, "2.3.1")] ∧
    NoDup (Task.id <$> forest) ∧
    (∀ row, row ∈ rows → Task.parentTaskId (TaskRow.task row) = None →
            TaskRow.depth row = 0%nat) ∧
    (∀ t, t ∈ forest → Task.parentTaskId t = None →
          ∃ row, row ∈ rows ∧ TaskRow.task row = t ∧ TaskRow.depth row = 0%nat) ∧
    (∀ j rc p,
       rows !! j = Some rc → Task.parentTaskId (TaskRow.task rc) = Some p →
       ∃ i rp, rows !! i = Some rp ∧ Task.id (TaskRow.task rp) = p ∧
         TaskRow.depth rc = (TaskRow.depth rp + 1)%nat ∧ (i < j)%nat ∧
         (∃ k, ChildRow (childrenOf IsoDate.parse RootCollation.localeCompare forest)
                 rp rc k) ∧
         ∀ m rm, (i < m < j)%nat → rows !! m = Some rm → Under rp rm) ∧
    (∀ i j rp rc,
       rows !! i = Some rp → rows !! j = Some rc →
       Task.parentTaskId (TaskRow.task rc) = Some (Task.id (TaskRow.task rp)) →
       TaskRow.depth rc = (TaskRow.depth rp + 1)%nat ∧ (i < j)%nat ∧
       (∃ k, ChildRow (childrenOf IsoDate.parse RootCollation.localeCompare forest) rp rc k) ∧
       ∀ m rm, (i < m < j)%nat → rows !! m = Some rm → Under rp rm).
Proof.
  assert (NoDup (Task.id <$> forest)) as Hids by (apply NoDup_by_decide; by vm_compute).
  assert (∃ rows, buildTaskRows IsoDate.parse RootCollation.localeCompare 7 forest
                  = Some rows) as [rows Hrows].
  { by_running. }
  exists rows. split; [exact Hrows|]. split.
  { vm_compute in Hrows. injection Hrows as <-. reflexivity. }
  split; [exact Hids|].
  destruct (buildTaskRows_preorder IsoDate.parse RootCollation.localeCompare
              7 forest rows Hrows) as (Hroot & Hall & Hex & Huniq).
  split; [exact Hroot|]. split; [exact Hall|]. split; [exact Hex|]. exact (Huniq Hids).
Defined.

Lemma buildTaskRows_numbers_witness :
  ∃ rows, buildTaskRows IsoDate.parse RootCollation.localeCompare 7 forest = Some rows ∧
    NoDup (TaskRow.number <$> rows) ∧
    (∀ row, row ∈ rows ↔
       ∃ path, Positioned IsoDate.parse RootCollation.localeCompare forest path
                 (TaskRow.task row) ∧
               TaskRow.number row = numberOfPath path ∧
               length path = (TaskRow.depth row + 1)%nat) ∧
    numberOfPath [1%nat] = "2" ∧ numberOfPath [1%nat; 2%nat] = "2.3".
Proof.
  assert (∃ rows, buildTaskRows IsoDate.parse RootCollation.localeCompare 7 forest
                  = Some rows) as [rows Hrows].
  { by_running. }
  exists rows. split; [exact Hrows|].
  exact (buildTaskRows_numbers IsoDate.parse RootCollation.localeCompare 7 forest rows Hrows).
Defined.

(** ** Bars and dependency lines *)

Lemma ganttBars_geometry_witness :
  buildTaskRows IsoDate.parse RootCollation.localeCompare 2 scenarioA = Some rowsA ∧
  timelineRange IsoDate.parse scenarioA = Some rangeA ∧
  rowsA !! 1%nat = Some sketchRow ∧
  getTaskRange IsoDate.parse (TaskRow.task sketchRow) = Some sketchRange ∧
  ganttBars IsoDate.parse rowsA (Some rangeA) !! 1%nat
    = Some (BarStyled 2 "gantt__bar gantt__bar--planned"
              (Qc_of_Z 64) (Qc_of_Z 25) (Qc_of_Z 25)) ∧
  ∃ className top left width raw,
    ganttBars IsoDate.parse rowsA (Some rangeA) !! 1%nat
      = Some (BarStyled (Task.id (TaskRow.task sketchRow)) className top left width) ∧
    left = (Qc_of_Z (TaskRange.start sketchRange - TimelineRange.startMs rangeA)
              / Qc_of_Z (Z.max 1 (TimelineRange.endMs rangeA - TimelineRange.startMs rangeA))
              * Qc_of_Z 100)%Qc ∧
    raw = (Qc_of_Z (TaskRange.end_ sketchRange - TaskRange.start sketchRange)
             / Qc_of_Z (Z.max 1 (TimelineRange.endMs rangeA - TimelineRange.startMs rangeA))
             * Qc_of_Z 100)%Qc ∧
    (raw ≤ width)%Qc ∧
    (Qc_of_Z 1 ≤ width)%Qc ∧
    (width = raw ∨ width = Qc_of_Z 1) ∧
    (TaskRange.start sketchRange = TaskRange.end_ sketchRange → width = Qc_of_Z 1) ∧
    0 < Z.max 1 (TimelineRange.endMs rangeA - TimelineRange.startMs rangeA).
Proof.
  assert (getTaskRange IsoDate.parse (TaskRow.task sketchRow) = Some sketchRange) as Hrange
    by (vm_compute; reflexivity).
  split; [vm_compute; reflexivity|]. split; [vm_compute; reflexivity|].
  split; [reflexivity|]. split; [exact Hrange|]. split.
  { unfold ganttBars. rewrite list_lookup_imap. simpl. unfold barOf. rewrite Hrange.
    do 2 f_equal; apply Qc_is_canon; vm_compute; reflexivity. }
  exact (ganttBars_geometry IsoDate.parse rowsA rangeA 1%nat sketchRow sketchRange
           eq_refl Hrange).
Defined.

(** C2, as written, fails: with a surface of width zero no line is
    emitted, although [sketch] depends on [design] and both have a row
    and an interval. *)
Lemma dependencyLines_zero_width :
  ∃ rows r,
    buildTaskRows IsoDate.parse RootCollation.localeCompare 2 scenarioA = Some rows ∧
    timelineRange IsoDate.parse scenarioA = Some r ∧
    (∃ row dependencyRow,
       row ∈ rows ∧ dependencyRow ∈ rows ∧
       TaskRow.task row = sketch ∧ TaskRow.task dependencyRow = design ∧
       Task.id design ∈ Task.dependsOn sketch ∧
       is_Some (getTaskRange IsoDate.parse sketch) ∧
       is_Some (getTaskRange IsoDate.parse design)) ∧
    dependencyLines IsoDate.parse (taskIndexById rows) rows (Some r) (Qc_of_Z 0) = [] ∧
    app_dependencyLines IsoDate.parse RootCollation.localeCompare 2 scenarioA (Qc_of_Z 0)
      = Some [].
Proof.
  eexists _, _. split; [vm_compute; reflexivity|]. split; [vm_compute; reflexivity|].
  split; [|split; vm_compute; reflexivity].
  eexists _, _. split; [by right; left|]. split; [by left|].
  split; [reflexivity|]. split; [reflexivity|]. split; [by left|].
  split; eexists; vm_compute; reflexivity.
Qed.

Lemma dependencyLines_emitted_witness :
  NoDup (Task.id <$> scenarioA) ∧
  buildTaskRows IsoDate.parse RootCollation.localeCompare 2 scenarioA = Some rowsA ∧
  timelineRange IsoDate.parse scenarioA = Some rangeA ∧
  length (dependencyLines IsoDate.parse (taskIndexById rowsA) rowsA
            (timelineRange IsoDate.parse scenarioA) (Qc_of_Z 800)) = 1%nat ∧
  (Qc_of_Z 800 = Qc_of_Z 0 →
     dependencyLines IsoDate.parse (taskIndexById rowsA) rowsA
       (timelineRange IsoDate.parse scenarioA) (Qc_of_Z 800) = []) ∧
  (timelineRange IsoDate.parse scenarioA = None →
     dependencyLines IsoDate.parse (taskIndexById rowsA) rowsA
       (timelineRange IsoDate.parse scenarioA) (Qc_of_Z 800) = []) ∧
  (∀ row, row ∈ rowsA → is_Some (getTaskRange IsoDate.parse (TaskRow.task row)) →
          is_Some (timelineRange IsoDate.parse scenarioA)) ∧
  ∀ line,
    line ∈ dependencyLines IsoDate.parse (taskIndexById rowsA) rowsA
             (timelineRange IsoDate.parse scenarioA) (Qc_of_Z 800) ↔
    Qc_of_Z 800 ≠ Qc_of_Z 0 ∧
    ∃ r rowIndex row taskRange dependencyIndex dependencyRow dependencyRange,
      timelineRange IsoDate.parse scenarioA = Some r ∧
      rowsA !! rowIndex = Some row ∧
      rowsA !! dependencyIndex = Some dependencyRow ∧
      Task.id (TaskRow.task dependencyRow) ∈ Task.dependsOn (TaskRow.task row) ∧
      getTaskRange IsoDate.parse (TaskRow.task row) = Some taskRange ∧
      getTaskRange IsoDate.parse (TaskRow.task dependencyRow) = Some dependencyRange ∧
      line = lineBetween r (Qc_of_Z 800) dependencyIndex dependencyRow dependencyRange
               rowIndex row taskRange.
Proof.
  assert (NoDup (Task.id <$> scenarioA)) as Hids by (apply NoDup_by_decide; by vm_compute).
  assert (buildTaskRows IsoDate.parse RootCollation.localeCompare 2 scenarioA = Some rowsA)
    as Hrows by (vm_compute; reflexivity).
  split; [exact Hids|]. split; [exact Hrows|].
  split; [vm_compute; reflexivity|]. split; [vm_compute; reflexivity|].
  exact (dependencyLines_emitted IsoDate.parse RootCollation.localeCompare
           2 scenarioA rowsA (Qc_of_Z 800) Hids Hrows).
Defined.

(** ** Further runs *)

Lemma buildTaskRows_top_level_witness :
  ∃ rows, buildTaskRows IsoDate.parse RootCollation.localeCompare 7 forest = Some rows ∧
    TaskRow.task <$> filter (λ r, TaskRow.depth r = 0%nat) rows
      = js_sort (compareTasks IsoDate.parse RootCollation.localeCompare)
          (filter (λ t, Task.parentTaskId t = None) forest) ∧
    length (filter (λ r, TaskRow.depth r = 0%nat) rows)
      = length (filter (λ t, Task.parentTaskId t = None) forest).
Proof.
  assert (∃ rows, buildTaskRows IsoDate.parse RootCollation.localeCompare 7 forest
                  = Some rows) as [rows Hrows].
  { by_running. }
  exists rows. split; [exact Hrows|].
  exact (buildTaskRows_top_level IsoDate.parse RootCollation.localeCompare 7 forest rows Hrows).
Defined.

Lemma buildTaskRows_rows_iff_reachable_witness :
  ∃ rows, buildTaskRows IsoDate.parse RootCollation.localeCompare 4 cyclic = Some rows ∧
    ∀ t, (∃ row, row ∈ rows ∧ TaskRow.task row = t) ↔ Reachable cyclic t.
Proof.
  assert (∃ rows, buildTaskRows IsoDate.parse RootCollation.localeCompare 4 cyclic
                  = Some rows) as [rows Hrows].
  { by_running. }
  exists rows. split; [exact Hrows|].
  exact (buildTaskRows_rows_iff_reachable IsoDate.parse RootCollation.localeCompare
           4 cyclic rows Hrows).
Defined.

Lemma buildTaskRows_no_root_witness :
  (∀ t, t ∈ rootless → Task.parentTaskId t ≠ None) ∧
  buildTaskRows IsoDate.parse RootCollation.localeCompare 4 rootless = Some [] ∧
  buildTaskRows IsoDate.parse RootCollation.localeCompare 0 rootless = Some [].
Proof.
  assert (∀ t, t ∈ rootless → Task.parentTaskId t ≠ None) as Hall.
  { intros t Hin. unfold rootless in Hin.
    repeat (apply elem_of_cons in Hin as [->|Hin]; [done|]). by apply elem_of_nil in Hin. }
  split; [exact Hall|].
  exact (buildTaskRows_no_root IsoDate.parse RootCollation.localeCompare 4 rootless Hall).
Defined.

Lemma buildTaskRows_diverges_witness :
  Reachable twins twinRoot ∧ twinChild ∈ twins ∧
  Task.parentTaskId twinChild = Some (Task.id twinRoot) ∧
  Task.id twinChild = Task.id twinRoot ∧
  ∀ fuel, buildTaskRows IsoDate.parse RootCollation.localeCompare fuel twins = None.
Proof.
  assert (Reachable twins twinRoot) as Hreach.
  { split; [by left|]. by exists []. }
  assert (twinChild ∈ twins) as Hin by (by right; left).
  split; [exact Hreach|]. split; [exact Hin|]. split; [reflexivity|]. split; [reflexivity|].
  exact (buildTaskRows_diverges IsoDate.parse RootCollation.localeCompare
           twins twinRoot twinChild Hreach Hin eq_refl eq_refl).
Defined.

Lemma buildTaskRows_depth_dots_witness :
  ∃ rows, buildTaskRows IsoDate.parse RootCollation.localeCompare 7 forest = Some rows ∧
    ∀ row, row ∈ rows →
      TaskRow.depth row = count_dots (TaskRow.number row) ∧
      rowPadding row = 16 * Z.of_nat (count_dots (TaskRow.number row)).
Proof.
  assert (∃ rows, buildTaskRows IsoDate.parse RootCollation.localeCompare 7 forest
                  = Some rows) as [rows Hrows].
  { by_running. }
  exists rows. split; [exact Hrows|].
  exact (buildTaskRows_depth_dots IsoDate.parse RootCollation.localeCompare 7 forest rows Hrows).
Defined.

Lemma Qc_800_nonneg : (Qc_of_Z 0 ≤ Qc_of_Z 800)%Qc.
Proof. apply (proj1 (Z2Qc_inj_le 0 800)). lia. Defined.

Lemma toX_on_surface_witness :
  timelineRange IsoDate.parse scenarioA = Some rangeA ∧
  design ∈ scenarioA ∧
  getTaskRange IsoDate.parse design = Some designRange ∧
  (Qc_of_Z 0 ≤ Qc_of_Z 800)%Qc ∧
  (Qc_of_Z 0 ≤ toX rangeA (Qc_of_Z 800) (TaskRange.start designRange))%Qc ∧
  (toX rangeA (Qc_of_Z 800) (TaskRange.end_ designRange) ≤ Qc_of_Z 800)%Qc ∧
  (TaskRange.start designRange ≤ TaskRange.end_ designRange →
     (toX rangeA (Qc_of_Z 800) (TaskRange.start designRange)
        ≤ toX rangeA (Qc_of_Z 800) (TaskRange.end_ designRange))%Qc ∧
     (toX rangeA (Qc_of_Z 800) (TaskRange.start designRange) ≤ Qc_of_Z 800)%Qc ∧
     (Qc_of_Z 0 ≤ toX rangeA (Qc_of_Z 800) (TaskRange.end_ designRange))%Qc).
Proof.
  assert (timelineRange IsoDate.parse scenarioA = Some rangeA) as Hr
    by (vm_compute; reflexivity).
  assert (design ∈ scenarioA) as Hin by by left.
  assert (getTaskRange IsoDate.parse design = Some designRange) as Hx
    by (vm_compute; reflexivity).
  split; [exact Hr|]. split; [exact Hin|]. split; [exact Hx|]. split; [exact Qc_800_nonneg|].
  exact (toX_on_surface IsoDate.parse scenarioA rangeA design designRange (Qc_of_Z 800)
           Hr Hin Hx Qc_800_nonneg).
Defined.

Lemma barOf_on_axis_witness :
  ∃ key className top left width,
    timelineRange IsoDate.parse scenarioA = Some rangeA ∧
    TaskRow.task sketchRow ∈ scenarioA ∧
    getTaskRange IsoDate.parse (TaskRow.task sketchRow) = Some sketchRange ∧
    barOf IsoDate.parse (Some rangeA) 1 sketchRow
      = BarStyled key className top left width ∧
    (Qc_of_Z 0 ≤ left)%Qc ∧
    (Qc_of_Z 1 ≤ width)%Qc ∧
    (width ≤ Qc_of_Z 100)%Qc ∧
    (TaskRange.start sketchRange ≤ TaskRange.end_ sketchRange → (left ≤ Qc_of_Z 100)%Qc).
Proof.
  assert (timelineRange IsoDate.parse scenarioA = Some rangeA) as Hr
    by (vm_compute; reflexivity).
  assert (TaskRow.task sketchRow ∈ scenarioA) as Hin by (by right; left).
  assert (getTaskRange IsoDate.parse (TaskRow.task sketchRow) = Some sketchRange) as Hx
    by (vm_compute; reflexivity).
  assert (∃ key className top left width,
            barOf IsoDate.parse (Some rangeA) 1 sketchRow
              = BarStyled key className top left width)
    as (key & className & top & left & width & Hbar).
  { unfold barOf. rewrite Hx. by eexists _, _, _, _, _. }
  exists key, className, top, left, width.
  split; [exact Hr|]. split; [exact Hin|]. split; [exact Hx|]. split; [exact Hbar|].
  exact (barOf_on_axis IsoDate.parse scenarioA rangeA 1 sketchRow sketchRange
           key className top left width Hr Hin Hx Hbar).
Defined.

Lemma timelineTicks_span_witness :
  Z.abs (TimelineRange.startMs rangeA) ≤ 4503599627370496 ∧
  Z.abs (TimelineRange.endMs rangeA) ≤ 4503599627370496 ∧
  head (Tick.label <$> timelineTicks toLocaleShort (Some rangeA))
    = Some (toLocaleShort (Some (TimelineRange.startMs rangeA))) ∧
  last (Tick.label <$> timelineTicks toLocaleShort (Some rangeA))
    = Some (toLocaleShort (Some (TimelineRange.startMs rangeA + rangeMs rangeA))) ∧
  (TimelineRange.startMs rangeA < TimelineRange.endMs rangeA →
   last (Tick.label <$> timelineTicks toLocaleShort (Some rangeA))
     = Some (toLocaleShort (Some (TimelineRange.endMs rangeA)))).
Proof.
  assert (Z.abs (TimelineRange.startMs rangeA) ≤ 4503599627370496) as Hs by (simpl; lia).
  assert (Z.abs (TimelineRange.endMs rangeA) ≤ 4503599627370496) as He by (simpl; lia).
  split; [exact Hs|]. split; [exact He|].
  exact (timelineTicks_span toLocaleShort rangeA Hs He).
Defined.

Lemma dependencyLines_vertical_witness :
  ∃ line,
    line ∈ dependencyLines IsoDate.parse (taskIndexById rowsA) rowsA (Some rangeA)
             (Qc_of_Z 800) ∧
    ∃ dependencyIndex rowIndex,
      (dependencyIndex < length rowsA)%nat ∧ (rowIndex < length rowsA)%nat ∧
      Line.y1 line = Qc_of_Z (Z.of_nat dependencyIndex * ROW_HEIGHT + ROW_HEIGHT / 2) ∧
      Line.y2 line = Qc_of_Z (Z.of_nat rowIndex * ROW_HEIGHT + ROW_HEIGHT / 2) ∧
      (Qc_of_Z 0 < Line.y1 line < Qc_of_Z (overlayHeight rowsA))%Qc ∧
      (Qc_of_Z 0 < Line.y2 line < Qc_of_Z (overlayHeight rowsA))%Qc ∧
      barTop <$> ganttBars IsoDate.parse rowsA (Some rangeA) !! dependencyIndex
        = Some (Some (Line.y1 line - Qc_of_Z 8)%Qc) ∧
      barTop <$> ganttBars IsoDate.parse rowsA (Some rangeA) !! rowIndex
        = Some (Some (Line.y2 line - Qc_of_Z 8)%Qc).
Proof.
  assert (∃ line, line ∈ dependencyLines IsoDate.parse (taskIndexById rowsA) rowsA
                           (Some rangeA) (Qc_of_Z 800)) as [line Hline].
  { eexists. vm_compute. by left. }
  exists line. split; [exact Hline|].
  exact (dependencyLines_vertical IsoDate.parse rowsA (Some rangeA) (Qc_of_Z 800) line Hline).
Defined.

Lemma timelineRange_order_independent_witness :
  [design; sketch] ≡ₚ [sketch; design] ∧
  timelineRange IsoDate.parse [design; sketch] = timelineRange IsoDate.parse [sketch; design].
Proof.
  assert ([design; sketch] ≡ₚ [sketch; design]) as Hperm by apply Permutation_swap.
  split; [exact Hperm|].
  exact (timelineRange_order_independent IsoDate.parse _ _ Hperm).
Defined.

Lemma unscheduled_collection_witness :
  (∀ task, task ∈ cyclic → parseDate IsoDate.parse (Task.startDate task) = None) ∧
  timelineRange IsoDate.parse cyclic = None ∧
  timelineTicks toLocaleShort (timelineRange IsoDate.parse cyclic) = [] ∧
  dependencyLines IsoDate.parse (taskIndexById rowsA) rowsA
    (timelineRange IsoDate.parse cyclic) (Qc_of_Z 800) = [] ∧
  Forall (λ bar, isPlaceholder bar = true)
    (ganttBars IsoDate.parse rowsA (timelineRange IsoDate.parse cyclic)) ∧
  timelineRangeLabel IsoDate.parse toLocaleDate (timelineRange IsoDate.parse cyclic)
    = "No scheduled dates".
Proof.
  assert (∀ task, task ∈ cyclic → parseDate IsoDate.parse (Task.startDate task) = None)
    as Hnone.
  { intros t Hin. unfold cyclic in Hin.
    repeat (apply elem_of_cons in Hin as [->|Hin]; [done|]). by apply elem_of_nil in Hin. }
  split; [exact Hnone|].
  exact (unscheduled_collection IsoDate.parse toLocaleShort toLocaleDate cyclic
           (taskIndexById rowsA) rowsA (Qc_of_Z 800) Hnone).
Defined.
